(** * Value decoding of the debug server ([server/value.go])

    A shallow embedding of [Server.value], the function that peeks the
    memory of the program under inspection and parses it as a value of a
    given DWARF type, together with the properties of the decoder that the
    design document states.

    Conventions.
    - Go's fixed-width integers are integers of [Z] with the wrap-around of
      every conversion and operation written out ([uint64], [int64], ...);
      a conversion of a value to the type it already has ([uint64(addr)] of
      a [uint64]) is left out.
    - A byte is a [Byte.byte]; a Go [[]byte] and the bytes of a Go [string]
      are a [list byte].
    - A Go [error] built by [fmt.Errorf] is a constructor of [Error] that
      keeps the arguments of the format; [%s] of a wrapped error is the
      wrapped [Error] itself.
    - Every read of the target's memory is recorded: a computation of the
      server is a value of [M A], the list of the memory accesses it made,
      in order, and its result or error. *)

From Stdlib Require Import ZArith List String Bool Lia.
From Stdlib Require Import Strings.Byte.
Import ListNotations.
Open Scope Z_scope.

(** ** Fixed-width integers *)

Definition wrapU (w x : Z) : Z := x mod 2 ^ w.
Definition wrapS (w x : Z) : Z := (x + 2 ^ (w - 1)) mod 2 ^ w - 2 ^ (w - 1).

Definition uint8 : Z -> Z := wrapU 8.
Definition uint16 : Z -> Z := wrapU 16.
Definition uint32 : Z -> Z := wrapU 32.
Definition uint64 : Z -> Z := wrapU 64.
Definition int8 : Z -> Z := wrapS 8.
Definition int16 : Z -> Z := wrapS 16.
Definition int32 : Z -> Z := wrapS 32.
Definition int64 : Z -> Z := wrapS 64.

Definition byteZ (b : byte) : Z := Z.of_N (Byte.to_N b).

Definition byte_of_Z (z : Z) : byte :=
  match Byte.of_N (Z.to_N (z mod 256)) with
  | Some b => b
  | None => x00
  end.

(** ** The DWARF type descriptors ([dwarf.Type])

    The declarations of package [dwarf] are not among the sources; the
    descriptors below carry the fields that [Server.value] reads
    ([Common().ByteSize], [Common().Offset], [Type], [ElemType], [Count],
    [StrideBitSize], [Field], [Name], [ByteOffset], the embedded
    [StructType] and [TypedefType]) under their Go names. *)

Module dwarf.

(** Modelled from the spec: [dwarf.CommonType], the part that every
    descriptor has: byte size, name and the offset that identifies the
    type. *)
Record CommonType := mkCommon {
  ByteSize : Z;      (* int64 *)
  Name : string;
  Offset : Z         (* dwarf.Offset *)
}.

(** Modelled from the spec: [dwarf.StructField], a declared field: name,
    nested type and byte offset. *)
Record StructField_ (T : Type) := mkField {
  FieldName : string;
  FieldType : T;
  ByteOffset : Z     (* int64 *)
}.
Arguments mkField {T}.
Arguments FieldName {T}.
Arguments FieldType {T}.
Arguments ByteOffset {T}.

(** Modelled from the spec: [dwarf.StructType], the ordered list of the
    declared fields. *)
Record StructType_ (T : Type) := mkStruct {
  StructCommon : CommonType;
  Field : list (StructField_ T)
}.
Arguments mkStruct {T}.
Arguments StructCommon {T}.
Arguments Field {T}.

(** Modelled from the spec: [dwarf.Type], one constructor per variant that
    the type switch of [value] names.  [OtherType] stands for every other
    implementation of [dwarf.Type]; it carries the name of its Go type as
    [%T] prints it.  A descriptor is a finite tree. *)
Inductive type : Type :=
| CharType (c : CommonType)
| UcharType (c : CommonType)
| IntType (c : CommonType)
| UintType (c : CommonType)
| AddrType (c : CommonType)
| BoolType (c : CommonType)
| FloatType (c : CommonType)
| ComplexType (c : CommonType)
| PtrType (c : CommonType) (Type_ : type)
| SliceType (st : StructType_ type) (ElemType : type)
| ArrayType (c : CommonType) (Type_ : type) (StrideBitSize Count : Z)
| StructType (st : StructType_ type)
| TypedefType (c : CommonType) (Type_ : type)
| MapType (c : CommonType) (KeyType ElemType : type)
| StringType (st : StructType_ type)
| ChanType (c : CommonType) (Type_ : type) (ElemType : type)
| FuncType (c : CommonType)
| InterfaceType (c : CommonType)
| OtherType (goName : string) (c : CommonType).

Definition StructField := StructField_ type.
Definition StructT := StructType_ type.

(** Modelled from the spec: [t.Common()], the common part of a
    descriptor. *)
Definition Common (t : type) : CommonType :=
  match t with
  | CharType c | UcharType c | IntType c | UintType c | AddrType c
  | BoolType c | FloatType c | ComplexType c => c
  | PtrType c _ => c
  | SliceType st _ => StructCommon st
  | ArrayType c _ _ _ => c
  | StructType st => StructCommon st
  | TypedefType c _ => c
  | MapType c _ _ => c
  | StringType st => StructCommon st
  | ChanType c _ _ => c
  | FuncType c => c
  | InterfaceType c => c
  | OtherType _ c => c
  end.

End dwarf.

(** ** The decoded values ([debug.Value])

    The declarations of package [debug] are not among the sources; each
    record has the fields that the composite literals of [Server.value]
    fill, under their Go names prefixed by the name of the struct. *)

Module debug.

(** Modelled from the spec: the structs of package [debug] that
    [Server.value] builds ([Pointer], [Array], [Slice], [Var],
    [StructField], [Struct], [Map], [String], [Channel], [Func]); their
    numeric fields are [uint64]. *)
Record Pointer := mkPointer { Pointer_TypeID : Z; Pointer_Address : Z }.

Record Array := mkArray {
  Array_ElementTypeID : Z;
  Array_Address : Z;
  Array_Length : Z;
  Array_StrideBits : Z
}.

Record Slice := mkSlice { Slice_Array : Array; Slice_Capacity : Z }.

Record Var := mkVar { Var_TypeID : Z; Var_Address : Z }.

Record StructField := mkStructField { StructField_Name : string; StructField_Var : Var }.

Record Struct := mkStructV { Struct_Fields : list StructField }.

Record Map := mkMap { Map_TypeID : Z; Map_Address : Z; Map_Length : Z }.

Record String := mkString { String_Length : Z; String_String : list byte }.

Record Channel := mkChannel {
  Channel_ElementTypeID : Z;
  Channel_Address : Z;
  Channel_Buffer : Z;
  Channel_Length : Z;
  Channel_Capacity : Z;
  Channel_Stride : Z;
  Channel_BufferStart : Z
}.

Record Func := mkFunc { Func_Address : Z }.

(** Modelled from the spec: [debug.Value], the tagged union of the results:
    the exact-width integers, booleans, floats and complex numbers, and the
    views above.  A [float32]/[float64] is kept as its IEEE bit pattern, a
    complex number as the pair of the bit patterns of its parts. *)
Inductive Value : Type :=
| Int8 (x : Z) | Int16 (x : Z) | Int32 (x : Z) | Int64 (x : Z)
| Uint8 (x : Z) | Uint16 (x : Z) | Uint32 (x : Z) | Uint64 (x : Z)
| Bool (b : bool)
| Float32 (bits : Z) | Float64 (bits : Z)
| Complex64 (re im : Z) | Complex128 (re im : Z)
| VPointer (p : Pointer)
| VSlice (s : Slice)
| VArray (a : Array)
| VStruct (s : Struct)
| VMap (m : Map)
| VString (s : String)
| VChannel (c : Channel)
| VFunc (f : Func)
| VInterface.

End debug.

(** ** The architecture ([arch.Architecture])

    Package [arch] is not among the sources.  The Architecture Decoder of
    the design (section 4.1) decodes an N-byte two's-complement signed
    integer, an N-byte unsigned integer and a pointer-width unsigned value
    as an address, all in one fixed byte order. *)

Module arch.

(** Modelled from the spec: [arch.Architecture], the fixed byte order and
    pointer width of the session. *)
Record Architecture := mkArch {
  LittleEndian : bool;   (* ByteOrder *)
  PointerSize : Z
}.

(** The bytes of [buf], most significant first. *)
Definition msbFirst (a : Architecture) (buf : list byte) : list byte :=
  if LittleEndian a then rev buf else buf.

(** Modelled from the spec: [Architecture.UintN], the N-byte unsigned
    integer of [buf]: the bytes are accumulated, most significant first, in
    a [uint64]. *)
Definition UintN (a : Architecture) (buf : list byte) : Z :=
  fold_left (fun u c => Z.lor (uint64 (Z.shiftl u 8)) (byteZ c))
            (msbFirst a buf) 0.

(** Modelled from the spec: [Architecture.IntN], the N-byte
    two's-complement integer of [buf]: the most significant byte is
    sign-extended, the others are accumulated after it in an [int64]. *)
Definition IntN (a : Architecture) (buf : list byte) : Z :=
  match msbFirst a buf with
  | [] => 0
  | b :: rest =>
      fold_left (fun x c => Z.lor (int64 (Z.shiftl x 8)) (byteZ c))
                rest (int8 (byteZ b))
  end.

(** Modelled from the spec: [Architecture.Uintptr], a pointer-width
    unsigned value as an address. *)
Definition Uintptr (a : Architecture) (buf : list byte) : Z := UintN a buf.

(** Modelled from the spec: [Architecture.Float32] and [Float64], as the
    bit pattern of the float. *)
Definition FloatBits (a : Architecture) (buf : list byte) : Z := UintN a buf.

(** The encoder that the decoders invert: the [n] low bytes of [v] in the
    byte order of the architecture. *)
Fixpoint bytesMsbFirst (n : nat) (v : Z) : list byte :=
  match n with
  | O => []
  | S k => byte_of_Z (Z.shiftr v (8 * Z.of_nat k)) :: bytesMsbFirst k v
  end.

Definition PutN (a : Architecture) (n : nat) (v : Z) : list byte :=
  if LittleEndian a then rev (bytesMsbFirst n v) else bytesMsbFirst n v.

End arch.

(** ** Errors, and computations that read the target's memory *)

Inductive PortError := Unmapped | Unavailable | PermissionDenied.

Inductive Error : Type :=
| ErrPeek (e : PortError)                 (* the error of a memory read *)
| ErrInvalidSize (n : Z)                  (* "invalid size: %d" *)
| ErrContext (prefix : string) (e : Error) (* "<prefix>: %s" *)
| ErrInvalidIntegerSize (bs : Z)          (* "invalid integer size: %d" *)
| ErrInvalidUnsignedSize (bs : Z)         (* "invalid unsigned integer size: %d" *)
| ErrInvalidFloatSize (bs : Z)            (* "invalid float size: %d" *)
| ErrInvalidComplexSize (bs : Z)          (* "invalid complex size: %d" *)
| ErrInvalidPointerSize (bs : Z)          (* "invalid pointer size: %d" *)
| ErrSliceCapacity (capacity length : Z)  (* "slice's capacity %d is less than its length %d" *)
| ErrArrayNotAligned                      (* "array is not byte-aligned" *)
| ErrChanNotPointer                       (* "reading channel: type is not a pointer" *)
| ErrChanNotPointerToStruct               (* "reading channel: type is not a pointer to struct" *)
| ErrUnsupportedType (goName : string)    (* "Unsupported type %T" *)
| ErrFieldNotFound (fieldName : string)
| ErrFieldType (fieldName : string)
| ErrMapLength.

(** Modelled from the spec: the error kinds of the design (section 7).
    The sources build every error with [fmt.Errorf]; [kind] says which kind
    of the design each message is.  A message that only adds a prefix has
    the kind of the error it wraps; the two channel-representation messages
    are none of the listed kinds. *)
Inductive ErrorKind :=
| InvalidSize | ReadFailure | FieldNotFound | UnsupportedFieldType
| InconsistentSlice | Alignment | UnsupportedType | Unlisted.

Fixpoint kind (e : Error) : ErrorKind :=
  match e with
  | ErrPeek _ => ReadFailure
  | ErrInvalidSize _ => InvalidSize
  | ErrContext _ e' => kind e'
  | ErrInvalidIntegerSize _ | ErrInvalidUnsignedSize _ | ErrInvalidFloatSize _
  | ErrInvalidComplexSize _ | ErrInvalidPointerSize _ => InvalidSize
  | ErrSliceCapacity _ _ => InconsistentSlice
  | ErrArrayNotAligned => Alignment
  | ErrChanNotPointer | ErrChanNotPointerToStruct => Unlisted
  | ErrUnsupportedType _ => UnsupportedType
  | ErrFieldNotFound _ => FieldNotFound
  | ErrFieldType _ => UnsupportedFieldType
  | ErrMapLength => Unlisted
  end.

Inductive result (A : Type) : Type :=
| Ok (a : A)
| Fail (e : Error).
Arguments Ok {A}.
Arguments Fail {A}.

(** One access to the memory of the target. *)
Inductive Access :=
| PeekBytes (addr n : Z)     (* [n] bytes at [addr] *)
| PeekPtr (addr : Z).        (* one pointer-width value at [addr] *)

Definition M (A : Type) : Type := (list Access * result A)%type.

Definition ret {A} (a : A) : M A := ([], Ok a).
Definition fail {A} (e : Error) : M A := ([], Fail e).

Definition bind {A B} (m : M A) (k : A -> M B) : M B :=
  match m with
  | (l, Ok a) => let (l', r) := k a in (l ++ l', r)
  | (l, Fail e) => (l, Fail e)
  end.

(** [if err != nil { return nil, fmt.Errorf("<prefix>: %s", err) }] *)
Definition context {A} (prefix : string) (m : M A) : M A :=
  match m with
  | (l, Fail e) => (l, Fail (ErrContext prefix e))
  | _ => m
  end.

Notation "x <- m ;; k" := (bind m (fun x => k))
  (at level 61, m at next level, right associativity).

Definition reads {A} (m : M A) : list Access := fst m.
Definition outcome {A} (m : M A) : result A := snd m.

(** ** The Memory Access Port and the server

    [Server.peek], [Server.peekBytes], [Server.peekPtr],
    [Server.peekPtrStructField], [Server.peekUintOrIntStructField] and
    [Server.peekMapLength] are not among the sources. *)

(** Modelled from the spec: the Memory Access Port (section 6), with its
    two operations [peek(address, byteCount)] and [peekPointer(address)],
    each of which may fail. *)
Record Port := mkPort {
  portPeek : Z -> Z -> PortError + list byte;
  portPeekPointer : Z -> PortError + Z
}.

(** Modelled from the spec: the server, with its architecture, its port
    and [peekMapLength], the pluggable, version-specific strategy that
    finds the length of a map. *)
Record Server := mkServer {
  arch_ : arch.Architecture;
  port : Port;
  peekMapLength : dwarf.type -> Z -> M Z
}.

(** The buffer that the caller made, [make([]byte, n)], after the port
    wrote into it: [n] bytes whatever the port delivered. *)
Definition filled (n : Z) (bs : list byte) : list byte :=
  firstn (Z.to_nat n) (bs ++ repeat x00 (Z.to_nat n)).

(** Modelled from the spec: [Server.peek], one read of [n] bytes at [addr]
    through the port. *)
Definition peek (s : Server) (addr n : Z) : M (list byte) :=
  ([PeekBytes addr n],
   match portPeek (port s) addr n with
   | inl e => Fail (ErrPeek e)
   | inr bs => Ok (filled n bs)
   end).

(** Modelled from the spec: [Server.peekBytes], the same read. *)
Definition peekBytes (s : Server) (addr n : Z) : M (list byte) := peek s addr n.

(** Modelled from the spec: [Server.peekPtr], one read of a pointer-width
    value at [addr] through the port. *)
Definition peekPtr (s : Server) (addr : Z) : M Z :=
  ([PeekPtr addr],
   match portPeekPointer (port s) addr with
   | inl e => Fail (ErrPeek e)
   | inr a => Ok (uint64 a)
   end).

(** *** The Field Accessor (design, section 4.2) *)

(** Modelled from the spec: the lookup of a field, a linear scan of the
    declared fields for an exact name match. *)
Definition getField (st : dwarf.StructT) (fieldName : string)
  : option dwarf.StructField :=
  find (fun f => String.eqb (dwarf.FieldName f) fieldName) (dwarf.Field st).

(** Modelled from the spec: [readPointerField]: the field's address is the
    base address plus the field's byte offset; a pointer-width value is read
    there; the lookup fails when no field has the name, or when the field's
    type is not of a pointer or address kind. *)
Definition peekPtrStructField (s : Server) (st : dwarf.StructT) (addr : Z)
    (fieldName : string) : M Z :=
  match getField st fieldName with
  | None => fail (ErrFieldNotFound fieldName)
  | Some f =>
      match dwarf.FieldType f with
      | dwarf.PtrType _ _ | dwarf.AddrType _ =>
          peekPtr s (uint64 (addr + uint64 (dwarf.ByteOffset f)))
      | _ => fail (ErrFieldType fieldName)
      end
  end.

(** Modelled from the spec: [readIntegerField]: the same lookup; the field
    is a signed or an unsigned integer, decoded at its own width and widened
    to a [uint64]. *)
Definition peekUintOrIntStructField (s : Server) (st : dwarf.StructT) (addr : Z)
    (fieldName : string) : M Z :=
  match getField st fieldName with
  | None => fail (ErrFieldNotFound fieldName)
  | Some f =>
      let a := uint64 (addr + uint64 (dwarf.ByteOffset f)) in
      match dwarf.FieldType f with
      | dwarf.UintType c | dwarf.UcharType c =>
          buf <- peek s a (dwarf.ByteSize c) ;;
          ret (arch.UintN (arch_ s) buf)
      | dwarf.IntType c | dwarf.CharType c =>
          buf <- peek s a (dwarf.ByteSize c) ;;
          ret (uint64 (arch.IntN (arch_ s) buf))
      | _ => fail (ErrFieldType fieldName)
      end
  end.

(** ** [Server.value] *)

(** [readBasic] reads the memory for a basic type of size [n] bytes. *)
Definition readBasic (s : Server) (addr n : Z) : M (list byte) :=
  if (n =? 1) || (n =? 2) || (n =? 4) || (n =? 8) || (n =? 16)
  then peek s addr n
  else fail (ErrInvalidSize n).

Definition maxStringSize : Z := 256.

Definition structFields (st : dwarf.StructT) (addr : Z) : list debug.StructField :=
  map (fun field =>
         debug.mkStructField (dwarf.FieldName field)
           (debug.mkVar
              (uint64 (dwarf.Offset (dwarf.Common (dwarf.FieldType field))))
              (uint64 (addr + uint64 (dwarf.ByteOffset field)))))
      (dwarf.Field st).

(** [value] peeks the program's memory at the given address, parsing it as
    a value of type [t]. *)
Fixpoint value (s : Server) (t : dwarf.type) (addr : Z) {struct t} : M debug.Value :=
  match t with
  | dwarf.CharType c | dwarf.IntType c =>
      let bs := dwarf.ByteSize c in
      buf <- context "reading integer" (readBasic s addr bs) ;;
      let x := arch.IntN (arch_ s) buf in
      if bs =? 1 then ret (debug.Int8 (int8 x))
      else if bs =? 2 then ret (debug.Int16 (int16 x))
      else if bs =? 4 then ret (debug.Int32 (int32 x))
      else if bs =? 8 then ret (debug.Int64 (int64 x))
      else fail (ErrInvalidIntegerSize bs)
  | dwarf.UcharType c | dwarf.UintType c | dwarf.AddrType c =>
      let bs := dwarf.ByteSize c in
      buf <- context "reading unsigned integer" (readBasic s addr bs) ;;
      let x := arch.UintN (arch_ s) buf in
      if bs =? 1 then ret (debug.Uint8 (uint8 x))
      else if bs =? 2 then ret (debug.Uint16 (uint16 x))
      else if bs =? 4 then ret (debug.Uint32 (uint32 x))
      else if bs =? 8 then ret (debug.Uint64 (uint64 x))
      else fail (ErrInvalidUnsignedSize bs)
  | dwarf.BoolType c =>
      let bs := dwarf.ByteSize c in
      buf <- context "reading boolean" (readBasic s addr bs) ;;
      ret (debug.Bool (existsb (fun b => negb (Byte.eqb b x00)) buf))
  | dwarf.FloatType c =>
      let bs := dwarf.ByteSize c in
      buf <- context "reading float" (readBasic s addr bs) ;;
      if bs =? 4 then ret (debug.Float32 (arch.FloatBits (arch_ s) buf))
      else if bs =? 8 then ret (debug.Float64 (arch.FloatBits (arch_ s) buf))
      else fail (ErrInvalidFloatSize bs)
  | dwarf.ComplexType c =>
      let bs := dwarf.ByteSize c in
      buf <- context "reading complex" (readBasic s addr bs) ;;
      if bs =? 8 then
        ret (debug.Complex64 (arch.FloatBits (arch_ s) (firstn 4 buf))
                             (arch.FloatBits (arch_ s) (skipn 4 buf)))
      else if bs =? 16 then
        ret (debug.Complex128 (arch.FloatBits (arch_ s) (firstn 8 buf))
                              (arch.FloatBits (arch_ s) (skipn 8 buf)))
      else fail (ErrInvalidComplexSize bs)
  | dwarf.PtrType c pointee =>
      let bs := dwarf.ByteSize c in
      if negb (bs =? arch.PointerSize (arch_ s)) then fail (ErrInvalidPointerSize bs)
      else
        buf <- context "reading pointer" (readBasic s addr bs) ;;
        ret (debug.VPointer
               (debug.mkPointer (uint64 (dwarf.Offset (dwarf.Common pointee)))
                                (uint64 (arch.Uintptr (arch_ s) buf))))
  | dwarf.SliceType st elem =>
      ptr <- context "reading slice location" (peekPtrStructField s st addr "array") ;;
      length <- context "reading slice length" (peekUintOrIntStructField s st addr "len") ;;
      capacity <- context "reading slice capacity" (peekUintOrIntStructField s st addr "cap") ;;
      if capacity <? length then fail (ErrSliceCapacity capacity length)
      else
        ret (debug.VSlice
               (debug.mkSlice
                  (debug.mkArray
                     (uint64 (dwarf.Offset (dwarf.Common elem)))
                     ptr
                     length
                     (uint64 (uint64 (dwarf.ByteSize (dwarf.Common elem)) * 8)))
                  capacity))
  | dwarf.ArrayType c elem stride length =>
      if negb (Z.rem stride 8 =? 0) then fail ErrArrayNotAligned
      else
        ret (debug.VArray
               (debug.mkArray
                  (uint64 (dwarf.Offset (dwarf.Common elem)))
                  addr
                  (uint64 length)
                  (uint64 stride)))
  | dwarf.StructType st =>
      ret (debug.VStruct (debug.mkStructV (structFields st addr)))
  | dwarf.TypedefType c target =>
      value s target addr
  | dwarf.MapType c _ _ =>
      length <- peekMapLength s t addr ;;
      ret (debug.VMap (debug.mkMap (uint64 (dwarf.Offset c)) addr length))
  | dwarf.StringType st =>
      ptr <- context "reading string location" (peekPtrStructField s st addr "str") ;;
      length <- context "reading string length" (peekUintOrIntStructField s st addr "len") ;;
      let n := if length >? maxStringSize then maxStringSize else length in
      tmp <- context "reading string contents" (peekBytes s ptr n) ;;
      ret (debug.VString (debug.mkString length tmp))
  | dwarf.ChanType c rep elem =>
      match rep with
      | dwarf.PtrType _ (dwarf.StructType st) =>
          a <- context "reading channel pointer" (peekPtr s addr) ;;
          if a =? 0 then
            (* This channel is nil. *)
            ret (debug.VChannel
                   (debug.mkChannel
                      (uint64 (dwarf.Offset (dwarf.Common elem)))
                      0 0 0 0
                      (uint64 (dwarf.ByteSize (dwarf.Common elem)))
                      0))
          else
            buf <- context "reading channel buffer location" (peekPtrStructField s st a "buf") ;;
            qcount <- context "reading channel length" (peekUintOrIntStructField s st a "qcount") ;;
            capacity <- context "reading channel capacity" (peekUintOrIntStructField s st a "dataqsiz") ;;
            recvx <- context "reading channel buffer index" (peekUintOrIntStructField s st a "recvx") ;;
            ret (debug.VChannel
                   (debug.mkChannel
                      (uint64 (dwarf.Offset (dwarf.Common elem)))
                      a buf qcount capacity
                      (uint64 (dwarf.ByteSize (dwarf.Common elem)))
                      recvx))
      | dwarf.PtrType _ _ => fail ErrChanNotPointerToStruct
      | _ => fail ErrChanNotPointer
      end
  | dwarf.FuncType c =>
      a <- context "reading func" (peekPtr s addr) ;;
      ret (debug.VFunc (debug.mkFunc a))
  | dwarf.InterfaceType c =>
      ret debug.VInterface
  | dwarf.OtherType goName c =>
      fail (ErrUnsupportedType goName)
  end.

(** ** A concrete port: a byte-addressed memory

    The target's memory as a partial map from addresses to bytes; a read
    fails when one of its bytes is not mapped.  [memPort] is the port that
    reads it, and [store] writes bytes into it. *)

Definition Memory : Type := Z -> option byte.

Fixpoint load (m : Memory) (addr : Z) (n : nat) : option (list byte) :=
  match n with
  | O => Some []
  | S k =>
      match m addr, load m (addr + 1) k with
      | Some b, Some bs => Some (b :: bs)
      | _, _ => None
      end
  end.

Fixpoint store (m : Memory) (addr : Z) (bs : list byte) : Memory :=
  match bs with
  | [] => m
  | b :: rest => fun a => if a =? addr then Some b else store m (addr + 1) rest a
  end.

Definition memPort (a : arch.Architecture) (m : Memory) : Port :=
  {| portPeek addr n :=
       match load m addr (Z.to_nat n) with
       | Some bs => inr bs
       | None => inl Unmapped
       end;
     portPeekPointer addr :=
       match load m addr (Z.to_nat (arch.PointerSize a)) with
       | Some bs => inr (arch.Uintptr a bs)
       | None => inl Unmapped
       end |}.

(** A map strategy that reads nothing and fails; the properties below do
    not depend on the strategy. *)
Definition noMaps (t : dwarf.type) (addr : Z) : M Z := fail ErrMapLength.

Definition memServer (a : arch.Architecture) (m : Memory) : Server :=
  mkServer a (memPort a m) noMaps.

Definition emptyMemory : Memory := fun _ => None.
Definition zeroMemory : Memory := fun _ => Some x00.

Definition amd64 : arch.Architecture := arch.mkArch true 8.
Definition bigEndian64 : arch.Architecture := arch.mkArch false 8.

(** The value cases of the integer types, by width. *)
Definition signedValue (w x : Z) : debug.Value :=
  if w =? 1 then debug.Int8 x
  else if w =? 2 then debug.Int16 x
  else if w =? 4 then debug.Int32 x
  else debug.Int64 x.

Definition unsignedValue (w x : Z) : debug.Value :=
  if w =? 1 then debug.Uint8 x
  else if w =? 2 then debug.Uint16 x
  else if w =? 4 then debug.Uint32 x
  else debug.Uint64 x.

Definition legalWidth (w : Z) : Prop := w = 1 \/ w = 2 \/ w = 4 \/ w = 8.

Definition isSigned (t : dwarf.type) : bool :=
  match t with
  | dwarf.CharType _ | dwarf.IntType _ => true
  | _ => false
  end.

Definition isUnsigned (t : dwarf.type) : bool :=
  match t with
  | dwarf.UcharType _ | dwarf.UintType _ | dwarf.AddrType _ => true
  | _ => false
  end.

Definition isBool (t : dwarf.type) : bool :=
  match t with
  | dwarf.BoolType _ => true
  | _ => false
  end.

Definition failed {A} (m : M A) : Prop := exists e, outcome m = Fail e.

Definition nonzero (b : byte) : bool := negb (Byte.eqb b x00).

(** The representation of a channel type is a pointer to a struct. *)
Definition isPtrToStruct (rep : dwarf.type) : bool :=
  match rep with
  | dwarf.PtrType _ (dwarf.StructType _) => true
  | _ => false
  end.

(** All the numeric fields of a channel value, the stride among them, are
    zero. *)
Definition zeroValuedChannel (c : debug.Channel) : Prop :=
  debug.Channel_Address c = 0 /\ debug.Channel_Buffer c = 0 /\
  debug.Channel_Length c = 0 /\ debug.Channel_Capacity c = 0 /\
  debug.Channel_Stride c = 0 /\ debug.Channel_BufferStart c = 0.

(** The view of one declared field of a struct at [addr]. *)
Definition fieldView (addr : Z) (f : dwarf.StructField) : debug.StructField :=
  debug.mkStructField (dwarf.FieldName f)
    (debug.mkVar (uint64 (dwarf.Offset (dwarf.Common (dwarf.FieldType f))))
                 ((addr + dwarf.ByteOffset f) mod 2 ^ 64)).

(** ** Sample descriptors *)

Definition common (size : Z) (name : string) (off : Z) : dwarf.CommonType :=
  dwarf.mkCommon size name off.

Definition tInt32 : dwarf.type := dwarf.IntType (common 4 "int32" 100).
Definition tInt64 : dwarf.type := dwarf.IntType (common 8 "int64" 108).
Definition tUint8 : dwarf.type := dwarf.UintType (common 1 "uint8" 116).
Definition tUintptr : dwarf.type := dwarf.UintType (common 8 "uintptr" 124).
Definition tBytePtr : dwarf.type := dwarf.PtrType (common 8 "*uint8" 132) tUint8.
Definition tBool16 : dwarf.type := dwarf.BoolType (common 16 "bool" 140).

(** [struct { a int32; b int64 }], [b] at offset 8 *)
Definition stAB : dwarf.StructT :=
  dwarf.mkStruct (common 16 "struct { a int32; b int64 }" 200)
    [dwarf.mkField "a" tInt32 0; dwarf.mkField "b" tInt64 8].

(** the header of a slice of [int64] *)
Definition stSlice : dwarf.StructT :=
  dwarf.mkStruct (common 24 "[]int64" 300)
    [dwarf.mkField "array" (dwarf.PtrType (common 8 "*int64" 308) tInt64) 0;
     dwarf.mkField "len" tInt64 8;
     dwarf.mkField "cap" tInt64 16].
Definition tSlice : dwarf.type := dwarf.SliceType stSlice tInt64.

(** the header of a string *)
Definition stString : dwarf.StructT :=
  dwarf.mkStruct (common 16 "string" 400)
    [dwarf.mkField "str" tBytePtr 0; dwarf.mkField "len" tInt64 8].
Definition tString : dwarf.type := dwarf.StringType stString.

(** the header of a channel, [runtime.hchan] *)
Definition stHchan : dwarf.StructT :=
  dwarf.mkStruct (common 96 "runtime.hchan" 500)
    [dwarf.mkField "qcount" tUintptr 0;
     dwarf.mkField "dataqsiz" tUintptr 8;
     dwarf.mkField "buf" tBytePtr 16;
     dwarf.mkField "recvx" tUintptr 56].
Definition tChan : dwarf.type :=
  dwarf.ChanType (common 8 "chan int64" 600)
    (dwarf.PtrType (common 8 "*runtime.hchan" 608) (dwarf.StructType stHchan))
    tInt64.
(** a channel whose representation is not a pointer *)
Definition tChanBad : dwarf.type :=
  dwarf.ChanType (common 8 "chan int64" 616) tInt64 tInt64.


(** ** Sample memories *)

(** a slice header at 4096: array = 0, len = 3, cap = 5 *)
Definition memSlice35 : Memory :=
  store (store zeroMemory 4104 (arch.PutN amd64 8 3)) 4112 (arch.PutN amd64 8 5).

(** a slice header at 4096: array = 0, len = 5, cap = 3 *)
Definition memSlice53 : Memory :=
  store (store zeroMemory 4104 (arch.PutN amd64 8 5)) 4112 (arch.PutN amd64 8 3).

(** a string header at 4096: str = 8192, len = 1000; all memory readable *)
Definition memString1000 : Memory :=
  store (store zeroMemory 4096 (arch.PutN amd64 8 8192)) 4104 (arch.PutN amd64 8 1000).

(** ** Notions for the further properties *)

(** The sizes that [readBasic] accepts. *)
Definition basicSize (n : Z) : Prop := n = 1 \/ n = 2 \/ n = 4 \/ n = 8 \/ n = 16.

(** The descriptors that [value] decodes through [readBasic]. *)
Definition isBasic (t : dwarf.type) : bool :=
  match t with
  | dwarf.CharType _ | dwarf.UcharType _ | dwarf.IntType _ | dwarf.UintType _
  | dwarf.AddrType _ | dwarf.BoolType _ | dwarf.FloatType _
  | dwarf.ComplexType _ | dwarf.PtrType _ _ => true
  | _ => false
  end.

(** The prefix that [value] puts before the error of [readBasic]. *)
Definition readingPrefix (t : dwarf.type) : string :=
  match t with
  | dwarf.CharType _ | dwarf.IntType _ => "reading integer"
  | dwarf.UcharType _ | dwarf.UintType _ | dwarf.AddrType _ => "reading unsigned integer"
  | dwarf.BoolType _ => "reading boolean"
  | dwarf.FloatType _ => "reading float"
  | dwarf.ComplexType _ => "reading complex"
  | dwarf.PtrType _ _ => "reading pointer"
  | _ => ""
  end.

(** The widths that the branch of a descriptor accepts after [readBasic]
    returned: the cases of its own switch on the byte size.  The boolean
    and pointer branches have no such switch. *)
Definition ownWidth (t : dwarf.type) (bs : Z) : bool :=
  match t with
  | dwarf.CharType _ | dwarf.IntType _
  | dwarf.UcharType _ | dwarf.UintType _ | dwarf.AddrType _ =>
      (bs =? 1) || (bs =? 2) || (bs =? 4) || (bs =? 8)
  | dwarf.FloatType _ => (bs =? 4) || (bs =? 8)
  | dwarf.ComplexType _ => (bs =? 8) || (bs =? 16)
  | _ => true
  end.

(** The pointer branch checks the size against the architecture before it
    reads. *)
Definition sizeAdmitted (a : arch.Architecture) (t : dwarf.type) : bool :=
  match t with
  | dwarf.PtrType c _ => dwarf.ByteSize c =? arch.PointerSize a
  | _ => true
  end.

(** What the branch of a basic descriptor does with the buffer that
    [readBasic] returned; [value_basic] shows that this is [value]. *)
Definition decodeBasic (a : arch.Architecture) (t : dwarf.type) (buf : list byte)
  : M debug.Value :=
  match t with
  | dwarf.CharType c | dwarf.IntType c =>
      let bs := dwarf.ByteSize c in
      let x := arch.IntN a buf in
      if bs =? 1 then ret (debug.Int8 (int8 x))
      else if bs =? 2 then ret (debug.Int16 (int16 x))
      else if bs =? 4 then ret (debug.Int32 (int32 x))
      else if bs =? 8 then ret (debug.Int64 (int64 x))
      else fail (ErrInvalidIntegerSize bs)
  | dwarf.UcharType c | dwarf.UintType c | dwarf.AddrType c =>
      let bs := dwarf.ByteSize c in
      let x := arch.UintN a buf in
      if bs =? 1 then ret (debug.Uint8 (uint8 x))
      else if bs =? 2 then ret (debug.Uint16 (uint16 x))
      else if bs =? 4 then ret (debug.Uint32 (uint32 x))
      else if bs =? 8 then ret (debug.Uint64 (uint64 x))
      else fail (ErrInvalidUnsignedSize bs)
  | dwarf.BoolType c =>
      ret (debug.Bool (existsb (fun b => negb (Byte.eqb b x00)) buf))
  | dwarf.FloatType c =>
      let bs := dwarf.ByteSize c in
      if bs =? 4 then ret (debug.Float32 (arch.FloatBits a buf))
      else if bs =? 8 then ret (debug.Float64 (arch.FloatBits a buf))
      else fail (ErrInvalidFloatSize bs)
  | dwarf.ComplexType c =>
      let bs := dwarf.ByteSize c in
      if bs =? 8 then
        ret (debug.Complex64 (arch.FloatBits a (firstn 4 buf))
                             (arch.FloatBits a (skipn 4 buf)))
      else if bs =? 16 then
        ret (debug.Complex128 (arch.FloatBits a (firstn 8 buf))
                              (arch.FloatBits a (skipn 8 buf)))
      else fail (ErrInvalidComplexSize bs)
  | dwarf.PtrType c pointee =>
      ret (debug.VPointer
             (debug.mkPointer (uint64 (dwarf.Offset (dwarf.Common pointee)))
                              (uint64 (arch.Uintptr a buf))))
  | _ => fail (ErrUnsupportedType "")
  end.

(** The value case that goes with a basic descriptor of byte size [bs]. *)
Definition caseOf (t : dwarf.type) (bs : Z) (v : debug.Value) : Prop :=
  match t, v with
  | (dwarf.CharType _ | dwarf.IntType _), debug.Int8 _ => bs = 1
  | (dwarf.CharType _ | dwarf.IntType _), debug.Int16 _ => bs = 2
  | (dwarf.CharType _ | dwarf.IntType _), debug.Int32 _ => bs = 4
  | (dwarf.CharType _ | dwarf.IntType _), debug.Int64 _ => bs = 8
  | (dwarf.UcharType _ | dwarf.UintType _ | dwarf.AddrType _), debug.Uint8 _ => bs = 1
  | (dwarf.UcharType _ | dwarf.UintType _ | dwarf.AddrType _), debug.Uint16 _ => bs = 2
  | (dwarf.UcharType _ | dwarf.UintType _ | dwarf.AddrType _), debug.Uint32 _ => bs = 4
  | (dwarf.UcharType _ | dwarf.UintType _ | dwarf.AddrType _), debug.Uint64 _ => bs = 8
  | dwarf.BoolType _, debug.Bool _ => True
  | dwarf.FloatType _, debug.Float32 _ => bs = 4
  | dwarf.FloatType _, debug.Float64 _ => bs = 8
  | dwarf.ComplexType _, debug.Complex64 _ _ => bs = 8
  | dwarf.ComplexType _, debug.Complex128 _ _ => bs = 16
  | dwarf.PtrType _ pointee, debug.VPointer p =>
      debug.Pointer_TypeID p = uint64 (dwarf.Offset (dwarf.Common pointee))
  | _, _ => False
  end.

(** What every value decoded from a descriptor that is not a typedef
    satisfies: it is in the case of the descriptor; a slice is not longer
    than its capacity; the preview of a string has its declared length, cut
    at [maxStringSize]; a struct has a view per declared field. *)
Definition wellFormed (t : dwarf.type) (v : debug.Value) : Prop :=
  match t, v with
  | dwarf.SliceType _ _, debug.VSlice sl =>
      debug.Array_Length (debug.Slice_Array sl) <= debug.Slice_Capacity sl
  | dwarf.ArrayType _ _ stride _, debug.VArray _ => (8 | stride)
  | dwarf.StructType st, debug.VStruct sv =>
      List.length (debug.Struct_Fields sv) = List.length (dwarf.Field st)
  | dwarf.MapType _ _ _, debug.VMap _ => True
  | dwarf.StringType _, debug.VString sv =>
      Z.of_nat (List.length (debug.String_String sv))
      = Z.min (debug.String_Length sv) maxStringSize
  | dwarf.ChanType _ _ _, debug.VChannel _ => True
  | dwarf.FuncType _, debug.VFunc _ => True
  | dwarf.InterfaceType _, debug.VInterface => True
  | dwarf.TypedefType _ _, _ => False
  | _, _ => caseOf t (dwarf.ByteSize (dwarf.Common t)) v
  end.

(** The descriptor under every typedef. *)
Fixpoint underlying (t : dwarf.type) : dwarf.type :=
  match t with
  | dwarf.TypedefType _ target => underlying target
  | _ => t
  end.

Definition isTypedef (t : dwarf.type) : bool :=
  match t with
  | dwarf.TypedefType _ _ => true
  | _ => false
  end.



(** a channel header pointer 8192 at 4096, and at 8192 the header:
    qcount = 2, dataqsiz = 4, buf = 12288, recvx = 1 *)
Definition memChan : Memory :=
  store (store (store (store (store zeroMemory
    4096 (arch.PutN amd64 8 8192))
    8192 (arch.PutN amd64 8 2))
    8200 (arch.PutN amd64 8 4))
    8208 (arch.PutN amd64 8 12288))
    8248 (arch.PutN amd64 8 1).

(** a port on which every read fails *)
Definition deadPort : Port :=
  mkPort (fun _ _ => inl Unavailable) (fun _ => inl Unavailable).

(** Evaluates the width, [8 * w] at a concrete [w], in a wrap-around
    equation. *)
Ltac norm_width H :=
  match type of H with
  | ?f ?e _ = _ => let e' := eval compute in e in change e with e' in H
  end.

(** * Properties *)

(** ** Fixed-width arithmetic *)

Lemma uint64_small (x : Z) : 0 <= x < 2 ^ 64 -> uint64 x = x.
Proof. intros H. unfold uint64, wrapU. apply Z.mod_small. exact H. Qed.

Lemma uint64_range (x : Z) : 0 <= uint64 x < 2 ^ 64.
Proof. unfold uint64, wrapU. apply Z.mod_pos_bound. reflexivity. Qed.

Lemma uint64_idem (x : Z) : uint64 (uint64 x) = uint64 x.
Proof. apply uint64_small, uint64_range. Qed.

Lemma uint64_add_inner (a b : Z) : uint64 (a + uint64 b) = (a + b) mod 2 ^ 64.
Proof. unfold uint64, wrapU. apply Zplus_mod_idemp_r. Qed.

(** ** The monad of recorded reads *)

Lemma bind_ok {A B} (l : list Access) (a : A) (k : A -> M B) :
  bind (l, Ok a) k = (l ++ reads (k a), outcome (k a)).
Proof. unfold bind, reads, outcome. destruct (k a); reflexivity. Qed.

Lemma bind_fail {A B} (l : list Access) (e : Error) (k : A -> M B) :
  bind (l, Fail e) k = (l, Fail e).
Proof. reflexivity. Qed.

Lemma context_ok {A} (prefix : string) (m : M A) (a : A) :
  outcome m = Ok a -> context prefix m = (reads m, Ok a).
Proof. destruct m as [l r]; simpl; intros ->; reflexivity. Qed.

Lemma context_fail {A} (prefix : string) (m : M A) (e : Error) :
  outcome m = Fail e -> context prefix m = (reads m, Fail (ErrContext prefix e)).
Proof. destruct m as [l r]; simpl; intros ->; reflexivity. Qed.

Lemma surjective_M {A} (m : M A) : m = (reads m, outcome m).
Proof. destruct m; reflexivity. Qed.

(** ** Typedefs *)

(** C5. Decoding a typedef of [t] at [addr] is decoding [t] at [addr]: the
    same memory accesses, and the same value or the same error, whatever the
    server, the memory and the address. *)
Theorem typedef_is_transparent (s : Server) (c : dwarf.CommonType)
    (t : dwarf.type) (addr : Z) :
  value s (dwarf.TypedefType c t) addr = value s t addr.
Proof. reflexivity. Qed.

(** ** Unsupported descriptors *)

(** C9. A descriptor of a variant that the type switch does not list
    decodes, at any address, to no value: the outcome is the error
    "Unsupported type %T", which carries the name of the variant and is of
    kind [UnsupportedType]; no memory is read. *)
Theorem other_variant_is_unsupported (s : Server) (goName : string)
    (c : dwarf.CommonType) (addr : Z) :
  reads (value s (dwarf.OtherType goName c) addr) = []
  /\ outcome (value s (dwarf.OtherType goName c) addr)
     = Fail (ErrUnsupportedType goName)
  /\ kind (ErrUnsupportedType goName) = UnsupportedType.
Proof. repeat split. Qed.

(** ** Channels *)

(** C10. A channel descriptor whose representation is not a pointer to a
    struct fails to decode before any memory is read, with one of the two
    "reading channel: type is not a pointer ..." errors, which are none of
    the listed error kinds. *)
Theorem channel_representation_is_checked (s : Server) (c : dwarf.CommonType)
    (rep elem : dwarf.type) (addr : Z) :
  isPtrToStruct rep = false ->
  reads (value s (dwarf.ChanType c rep elem) addr) = []
  /\ exists e, outcome (value s (dwarf.ChanType c rep elem) addr) = Fail e
       /\ (e = ErrChanNotPointer \/ e = ErrChanNotPointerToStruct)
       /\ kind e = Unlisted.
Proof.
  intros Hrep.
  destruct rep as [ | | | | | | | |cp pointee| | | | | | | | | | ];
    try (split; [reflexivity | exists ErrChanNotPointer; auto]).
  destruct pointee; try discriminate Hrep;
    (split; [reflexivity | exists ErrChanNotPointerToStruct; auto]).
Qed.

Lemma channel_representation_is_checked_witness :
  reads (value (memServer amd64 zeroMemory) tChanBad 4096) = []
  /\ exists e, outcome (value (memServer amd64 zeroMemory) tChanBad 4096) = Fail e
       /\ (e = ErrChanNotPointer \/ e = ErrChanNotPointerToStruct)
       /\ kind e = Unlisted.
Proof.
  apply (channel_representation_is_checked (memServer amd64 zeroMemory)
           (common 8 "chan int64" 616) tInt64 tInt64 4096).
  reflexivity.
Defined.

(** C1 (as amended). For a channel descriptor whose representation is a
    pointer to a struct: when the pointer read at [addr] is zero, the decoder
    makes that one read and no other, and returns the channel value whose
    header address, buffer address, length, capacity and buffer read offset
    are 0, whose element type identifier is that of the element type and
    whose stride is the byte size of the element type. *)
Theorem nil_channel_decoding (s : Server) (c cp : dwarf.CommonType) (st : dwarf.StructT)
    (elem : dwarf.type) (addr : Z) :
  portPeekPointer (port s) addr = inr 0 ->
  value s (dwarf.ChanType c (dwarf.PtrType cp (dwarf.StructType st)) elem) addr =
    ([PeekPtr addr],
     Ok (debug.VChannel
           (debug.mkChannel
              (uint64 (dwarf.Offset (dwarf.Common elem)))
              0 0 0 0
              (uint64 (dwarf.ByteSize (dwarf.Common elem)))
              0))).
Proof.
  intros Hnil. cbn [value]. unfold peekPtr. rewrite Hnil. reflexivity.
Qed.

Lemma nil_channel_decoding_witness :
  value (memServer amd64 zeroMemory) tChan 4096 =
    ([PeekPtr 4096],
     Ok (debug.VChannel (debug.mkChannel 108 0 0 0 0 8 0))).
Proof.
  apply (nil_channel_decoding (memServer amd64 zeroMemory) (common 8 "chan int64" 600)
           (common 8 "*runtime.hchan" 608) stHchan tInt64 4096).
  reflexivity.
Defined.

(** C1 as stated fails.  The pointer read at 4096 is zero; the channel value
    of [chan int64] has stride 8, not 0; and a channel descriptor whose
    representation is not a pointer yields no channel value at all. *)
Lemma nil_channel_stride_is_not_zero :
  portPeekPointer (port (memServer amd64 zeroMemory)) 4096 = inr 0
  /\ (exists ch, outcome (value (memServer amd64 zeroMemory) tChan 4096)
                 = Ok (debug.VChannel ch)
                 /\ debug.Channel_Stride ch = 8
                 /\ ~ zeroValuedChannel ch)
  /\ value (memServer amd64 zeroMemory) tChanBad 4096 = ([], Fail ErrChanNotPointer).
Proof.
  split; [reflexivity|]. split; [|reflexivity].
  eexists. split; [reflexivity|]. split; [reflexivity|].
  unfold zeroValuedChannel. simpl. intros (_ & _ & _ & _ & H & _). discriminate H.
Qed.

(** ** Arrays *)

(** C8. An array descriptor fails to decode, with the error of kind
    [Alignment], exactly when its stride in bits is not divisible by 8.
    Otherwise it decodes, without any memory read, to the array view at
    [addr] whose length and stride are the declared count and stride
    (as [uint64]: themselves when not negative). *)
Theorem array_decoding (s : Server) (c : dwarf.CommonType) (elem : dwarf.type)
    (stride count addr : Z) :
  let v := value s (dwarf.ArrayType c elem stride count) addr in
  kind ErrArrayNotAligned = Alignment
  /\ (~ (8 | stride) <-> v = ([], Fail ErrArrayNotAligned))
  /\ ((8 | stride) <->
        v = ([], Ok (debug.VArray
                       (debug.mkArray (uint64 (dwarf.Offset (dwarf.Common elem)))
                                      addr (uint64 count) (uint64 stride)))))
  /\ (0 <= count < 2 ^ 63 -> uint64 count = count)
  /\ (0 <= stride < 2 ^ 63 -> uint64 stride = stride).
Proof.
  intros v. subst v. cbn [value].
  assert (Hdiv : Z.rem stride 8 = 0 <-> (8 | stride))
    by (apply Z.rem_divide; discriminate).
  split; [reflexivity|].
  assert (Hsmall : forall x, 0 <= x < 2 ^ 63 -> uint64 x = x)
    by (intros x Hx; apply uint64_small; lia).
  destruct (Z.rem stride 8 =? 0) eqn:E; cbn [negb].
  - apply Z.eqb_eq in E. apply Hdiv in E.
    split; [split; [intros H; contradiction | intros H; discriminate H]|].
    split; [split; [reflexivity | intros _; exact E]|].
    split; apply Hsmall.
  - apply Z.eqb_neq in E.
    assert (Hn : ~ (8 | stride)) by (intros H; apply E, Hdiv, H).
    split; [split; [reflexivity | intros _; exact Hn]|].
    split; [split; [intros H; contradiction | intros H; discriminate H]|].
    split; apply Hsmall.
Qed.

Lemma array_decoding_witness :
  (~ (8 | 12) <->
     value (memServer amd64 emptyMemory)
           (dwarf.ArrayType (common 6 "[4]uint12" 700) tUint8 12 4) 4096
     = ([], Fail ErrArrayNotAligned))
  /\ uint64 4 = 4.
Proof.
  pose proof (array_decoding (memServer amd64 emptyMemory)
                (common 6 "[4]uint12" 700) tUint8 12 4 4096) as H.
  cbv zeta in H. destruct H as (_ & Hfail & _ & Hcount & _).
  split; [exact Hfail | apply Hcount; lia].
Defined.

(** ** Structs *)

(** C7. A struct descriptor decodes at [addr], without any memory read, to
    a struct value with one field view per declared field, in the order of
    declaration; the view of a field carries its name, the identifier of
    its type and the address [addr] plus its byte offset (the 64-bit sum:
    the sum itself when it fits). *)
Theorem struct_decoding (s : Server) (st : dwarf.StructT) (addr : Z) :
  exists fields,
    value s (dwarf.StructType st) addr
      = ([], Ok (debug.VStruct (debug.mkStructV fields)))
    /\ List.length fields = List.length (dwarf.Field st)
    /\ forall i f, nth_error (dwarf.Field st) i = Some f ->
         nth_error fields i = Some (fieldView addr f)
         /\ debug.StructField_Name (fieldView addr f) = dwarf.FieldName f
         /\ debug.Var_TypeID (debug.StructField_Var (fieldView addr f))
            = uint64 (dwarf.Offset (dwarf.Common (dwarf.FieldType f)))
         /\ (0 <= addr + dwarf.ByteOffset f < 2 ^ 64 ->
             debug.Var_Address (debug.StructField_Var (fieldView addr f))
             = addr + dwarf.ByteOffset f).
Proof.
  exists (structFields st addr). split; [reflexivity|].
  unfold structFields. split; [apply List.length_map|].
  intros i f Hf. split.
  - rewrite nth_error_map, Hf. cbn [option_map]. unfold fieldView.
    rewrite uint64_add_inner. reflexivity.
  - repeat split. intros Hfit. cbn. apply Z.mod_small. exact Hfit.
Qed.

Lemma struct_decoding_witness :
  exists fields,
    value (memServer amd64 emptyMemory) (dwarf.StructType stAB) 4096
      = ([], Ok (debug.VStruct (debug.mkStructV fields)))
    /\ nth_error fields 1 = Some (debug.mkStructField "b" (debug.mkVar 108 4104)).
Proof.
  destruct (struct_decoding (memServer amd64 emptyMemory) stAB 4096)
    as (fields & Hv & _ & Hnth).
  exists fields. split; [exact Hv|].
  destruct (Hnth 1%nat (dwarf.mkField "b" tInt64 8) eq_refl) as (H & _).
  exact H.
Defined.

(** ** Reads and outcomes of sequenced computations *)

Lemma outcome_bind {A B} (m : M A) (k : A -> M B) :
  outcome (bind m k) =
    match outcome m with
    | Ok a => outcome (k a)
    | Fail e => Fail e
    end.
Proof.
  destruct m as [l [a|e]]; [|reflexivity].
  rewrite bind_ok. reflexivity.
Qed.

Lemma reads_bind {A B} (m : M A) (k : A -> M B) :
  reads (bind m k) =
    reads m ++ match outcome m with
               | Ok a => reads (k a)
               | Fail _ => []
               end.
Proof.
  destruct m as [l [a|e]].
  - rewrite bind_ok. reflexivity.
  - cbn. symmetry. apply app_nil_r.
Qed.

Lemma outcome_context {A} (prefix : string) (m : M A) :
  outcome (context prefix m) =
    match outcome m with
    | Ok a => Ok a
    | Fail e => Fail (ErrContext prefix e)
    end.
Proof. destruct m as [l [a|e]]; reflexivity. Qed.

Lemma reads_context {A} (prefix : string) (m : M A) :
  reads (context prefix m) = reads m.
Proof. destruct m as [l [a|e]]; reflexivity. Qed.

(** ** Basic types: the size check *)

Lemma readBasic_invalid (s : Server) (addr n : Z) :
  n <> 1 -> n <> 2 -> n <> 4 -> n <> 8 -> n <> 16 ->
  readBasic s addr n = ([], Fail (ErrInvalidSize n)).
Proof.
  intros H1 H2 H4 H8 H16. unfold readBasic.
  apply Z.eqb_neq in H1, H2, H4, H8, H16.
  rewrite H1, H2, H4, H8, H16. reflexivity.
Qed.

Lemma readBasic_16_failed_or_read (s : Server) (addr : Z) :
  (exists e, readBasic s addr 16 = ([PeekBytes addr 16], Fail e))
  \/ (exists buf, readBasic s addr 16 = ([PeekBytes addr 16], Ok buf)).
Proof.
  unfold readBasic, peek. cbn [Z.eqb orb Pos.eqb].
  destruct (portPeek (port s) addr 16) as [e|bs]; [left|right]; eexists; reflexivity.
Qed.

(** C2 (as amended). A signed, unsigned or address descriptor fails to
    decode whenever its byte size is outside {1,2,4,8}.  A boolean
    descriptor fails to decode, with "invalid size" and before any read,
    whenever its byte size is outside {1,2,4,8,16}; a boolean descriptor of
    byte size 16 whose 16 bytes are readable decodes to the boolean that
    says whether one of them is not zero. *)
Theorem integer_like_size_is_validated (s : Server) (t : dwarf.type) (addr : Z) :
  let bs := dwarf.ByteSize (dwarf.Common t) in
  (isSigned t || isUnsigned t = true -> ~ legalWidth bs -> failed (value s t addr))
  /\ (isBool t = true -> ~ legalWidth bs -> bs <> 16 ->
      value s t addr = ([], Fail (ErrContext "reading boolean" (ErrInvalidSize bs))))
  /\ (isBool t = true -> bs = 16 ->
      forall buf, portPeek (port s) addr 16 = inr buf ->
        value s t addr
        = ([PeekBytes addr 16], Ok (debug.Bool (existsb nonzero (filled 16 buf))))).
Proof.
  intros bs. subst bs. unfold legalWidth, failed. repeat split.
  - intros Hkind Hsize.
    destruct t; try discriminate Hkind; cbn [dwarf.Common] in Hsize; cbn [value];
      (destruct (Z.eq_dec (dwarf.ByteSize c) 16) as [E|E];
       [ rewrite E;
         destruct (readBasic_16_failed_or_read s addr) as [[e He]|[buf He]];
         rewrite He; eexists; reflexivity
       | rewrite readBasic_invalid by lia; eexists; reflexivity ]).
  - intros Hkind Hsize H16.
    destruct t; try discriminate Hkind. cbn [dwarf.Common] in *. cbn [value].
    rewrite readBasic_invalid by lia. reflexivity.
  - intros Hkind H16 buf Hbuf.
    destruct t; try discriminate Hkind. cbn [dwarf.Common] in *. cbn [value].
    rewrite H16. unfold readBasic, peek. cbn [Z.eqb orb Pos.eqb].
    rewrite Hbuf. reflexivity.
Qed.

Lemma integer_like_size_is_validated_witness :
  failed (value (memServer amd64 zeroMemory) (dwarf.IntType (common 16 "int128" 800)) 4096)
  /\ value (memServer amd64 zeroMemory) (dwarf.BoolType (common 3 "bool" 808)) 4096
     = ([], Fail (ErrContext "reading boolean" (ErrInvalidSize 3)))
  /\ value (memServer amd64 zeroMemory) tBool16 4096
     = ([PeekBytes 4096 16], Ok (debug.Bool false)).
Proof.
  split; [|split].
  - apply (integer_like_size_is_validated (memServer amd64 zeroMemory)
             (dwarf.IntType (common 16 "int128" 800)) 4096).
    + reflexivity.
    + unfold legalWidth. cbn. lia.
  - apply (integer_like_size_is_validated (memServer amd64 zeroMemory)
             (dwarf.BoolType (common 3 "bool" 808)) 4096).
    + reflexivity.
    + unfold legalWidth. cbn. lia.
    + cbn. lia.
  - apply (proj2 (proj2 (integer_like_size_is_validated (memServer amd64 zeroMemory)
             tBool16 4096)) eq_refl eq_refl (repeat x00 16)).
    reflexivity.
Defined.

(** C2 as stated fails: a boolean descriptor of byte size 16, a size outside
    {1,2,4,8}, decodes to a boolean value where its 16 bytes are readable. *)
Lemma bool_of_size_16_is_decoded :
  isBool tBool16 = true
  /\ ~ legalWidth (dwarf.ByteSize (dwarf.Common tBool16))
  /\ value (memServer amd64 zeroMemory) tBool16 4096
     = ([PeekBytes 4096 16], Ok (debug.Bool false))
  /\ ~ failed (value (memServer amd64 zeroMemory) tBool16 4096).
Proof.
  split; [reflexivity|]. split; [unfold legalWidth; cbn; lia|].
  split; [reflexivity|]. intros [e He]. discriminate He.
Qed.

(** ** Slices *)

(** C3. Where the three fields of a slice header are readable, the slice
    descriptor fails to decode with the error of kind [InconsistentSlice]
    exactly when the capacity read is less than the length read; otherwise
    it decodes to a slice of capacity [cap] over the array view at the
    pointer read, of length [len] and of stride the byte size of the element
    type times 8 (the 64-bit product: the product itself when it fits). *)
Theorem slice_decoding (s : Server) (st : dwarf.StructT) (elem : dwarf.type)
    (addr ptr len cap : Z) :
  outcome (peekPtrStructField s st addr "array") = Ok ptr ->
  outcome (peekUintOrIntStructField s st addr "len") = Ok len ->
  outcome (peekUintOrIntStructField s st addr "cap") = Ok cap ->
  let r := outcome (value s (dwarf.SliceType st elem) addr) in
  let bs := dwarf.ByteSize (dwarf.Common elem) in
  (cap < len -> r = Fail (ErrSliceCapacity cap len))
  /\ (len <= cap ->
      r = Ok (debug.VSlice
                (debug.mkSlice
                   (debug.mkArray (uint64 (dwarf.Offset (dwarf.Common elem)))
                                  ptr len (uint64 (uint64 bs * 8)))
                   cap)))
  /\ ((exists e, r = Fail e /\ kind e = InconsistentSlice) <-> cap < len)
  /\ (0 <= bs < 2 ^ 61 -> uint64 (uint64 bs * 8) = bs * 8).
Proof.
  intros Hptr Hlen Hcap r bs. subst r.
  assert (Hr : outcome (value s (dwarf.SliceType st elem) addr) =
               if cap <? len then Fail (ErrSliceCapacity cap len)
               else Ok (debug.VSlice
                          (debug.mkSlice
                             (debug.mkArray (uint64 (dwarf.Offset (dwarf.Common elem)))
                                            ptr len (uint64 (uint64 bs * 8)))
                             cap))).
  { cbn [value].
    rewrite outcome_bind, outcome_context, Hptr.
    rewrite outcome_bind, outcome_context, Hlen.
    rewrite outcome_bind, outcome_context, Hcap.
    destruct (cap <? len); reflexivity. }
  rewrite Hr. destruct (cap <? len) eqn:E.
  - apply Z.ltb_lt in E. repeat split.
    + intros H. lia.
    + intros _. exact E.
    + exists (ErrSliceCapacity cap len). split; reflexivity.
    + intros H. rewrite (uint64_small bs) by lia. apply uint64_small. lia.
  - apply Z.ltb_ge in E. repeat split.
    + intros H. lia.
    + intros (e & He & _). discriminate He.
    + intros H. lia.
    + intros H. rewrite (uint64_small bs) by lia. apply uint64_small. lia.
Qed.

Lemma slice_decoding_witness :
  outcome (value (memServer amd64 memSlice35) tSlice 4096)
  = Ok (debug.VSlice (debug.mkSlice (debug.mkArray 108 0 3 64) 5))
  /\ outcome (value (memServer amd64 memSlice53) tSlice 4096)
     = Fail (ErrSliceCapacity 3 5).
Proof.
  split.
  - apply (slice_decoding (memServer amd64 memSlice35) stSlice tInt64 4096 0 3 5).
    + reflexivity.
    + reflexivity.
    + reflexivity.
    + lia.
  - apply (slice_decoding (memServer amd64 memSlice53) stSlice tInt64 4096 0 5 3).
    + reflexivity.
    + reflexivity.
    + reflexivity.
    + lia.
Defined.

(** ** Strings *)

Lemma byteZ_range (b : byte) : 0 <= byteZ b < 256.
Proof.
  unfold byteZ. pose proof (Byte.to_N_bounded b) as H.
  split; [apply N2Z.is_nonneg | lia].
Qed.

Lemma UintN_nonneg (a : arch.Architecture) (buf : list byte) :
  0 <= arch.UintN a buf.
Proof.
  unfold arch.UintN.
  assert (H : forall l acc, 0 <= acc ->
            0 <= fold_left (fun u c => Z.lor (uint64 (Z.shiftl u 8)) (byteZ c)) l acc).
  { induction l as [|c l IH]; intros acc Hacc; cbn [fold_left]; [exact Hacc|].
    apply IH. apply Z.lor_nonneg. split.
    - apply uint64_range.
    - apply byteZ_range. }
  apply H. lia.
Qed.

Lemma peekUintOrIntStructField_nonneg (s : Server) (st : dwarf.StructT)
    (addr : Z) (fieldName : string) (x : Z) :
  outcome (peekUintOrIntStructField s st addr fieldName) = Ok x -> 0 <= x.
Proof.
  unfold peekUintOrIntStructField.
  destruct (getField st fieldName) as [f|]; [|discriminate].
  destruct (dwarf.FieldType f); try discriminate;
    rewrite outcome_bind; unfold peek, outcome at 1; cbn [snd];
    (destruct (portPeek _ _ _); [discriminate|]);
    cbn; intros H; injection H as <-;
    first [apply UintN_nonneg | apply uint64_range].
Qed.

Lemma filled_length (n : Z) (bs : list byte) :
  List.length (filled n bs) = Z.to_nat n.
Proof.
  unfold filled. rewrite List.length_firstn, List.length_app, List.repeat_length.
  lia.
Qed.

(** C4. Where the header of a string is readable and declares the length
    [L], the decoder reads, after the header, the [min L 256] bytes at the
    pointer of the header and nothing else, so at most 256 bytes of the
    string; when that read succeeds the decoder returns the string value of
    declared length [L] with the bytes read, and every string value it
    returns has declared length [L] and a preview of [min L 256] bytes. *)
Theorem string_decoding (s : Server) (st : dwarf.StructT) (addr ptr L : Z) :
  outcome (peekPtrStructField s st addr "str") = Ok ptr ->
  outcome (peekUintOrIntStructField s st addr "len") = Ok L ->
  let v := value s (dwarf.StringType st) addr in
  let n := Z.min L maxStringSize in
  0 <= n <= 256
  /\ reads v = reads (peekPtrStructField s st addr "str")
               ++ reads (peekUintOrIntStructField s st addr "len")
               ++ [PeekBytes ptr n]
  /\ (forall val, outcome v = Ok val ->
        exists tmp, val = debug.VString (debug.mkString L tmp)
                    /\ Z.of_nat (List.length tmp) = n)
  /\ (forall bs, portPeek (port s) ptr n = inr bs ->
        outcome v = Ok (debug.VString (debug.mkString L (filled n bs)))).
Proof.
  intros Hptr Hlen v n. subst v.
  pose proof (peekUintOrIntStructField_nonneg _ _ _ _ _ Hlen) as HL.
  assert (Hn : (if L >? maxStringSize then maxStringSize else L) = n).
  { unfold n, maxStringSize. destruct (L >? 256) eqn:E.
    - apply Z.gtb_lt in E. lia.
    - rewrite Z.gtb_ltb in E. apply Z.ltb_ge in E. lia. }
  assert (Hbound : 0 <= n <= 256) by (unfold n, maxStringSize; lia).
  split; [exact Hbound|].
  assert (Hv : value s (dwarf.StringType st) addr =
               (reads (peekPtrStructField s st addr "str")
                ++ reads (peekUintOrIntStructField s st addr "len")
                ++ [PeekBytes ptr n],
                match portPeek (port s) ptr n with
                | inl e => Fail (ErrContext "reading string contents" (ErrPeek e))
                | inr bs => Ok (debug.VString (debug.mkString L (filled n bs)))
                end)).
  { cbn [value].
    rewrite (context_ok _ _ _ Hptr), bind_ok.
    rewrite (context_ok _ _ _ Hlen), bind_ok.
    rewrite Hn. unfold peekBytes, peek.
    destruct (portPeek (port s) ptr n); reflexivity. }
  rewrite Hv. cbn [reads outcome fst snd].
  split; [reflexivity|]. split.
  - intros val. destruct (portPeek (port s) ptr n) as [e|bs]; [discriminate|].
    intros H. injection H as <-.
    exists (filled n bs). split; [reflexivity|].
    rewrite filled_length. lia.
  - intros bs Hbs. rewrite Hbs. reflexivity.
Qed.

Lemma string_decoding_witness :
  reads (value (memServer amd64 memString1000) tString 4096)
  = [PeekPtr 4096; PeekBytes 4104 8; PeekBytes 8192 256]
  /\ outcome (value (memServer amd64 memString1000) tString 4096)
     = Ok (debug.VString (debug.mkString 1000 (repeat x00 256))).
Proof.
  pose proof (string_decoding (memServer amd64 memString1000) stString
                4096 8192 1000 eq_refl eq_refl) as H.
  cbv zeta in H. destruct H as (_ & Hreads & _ & Hok).
  split.
  - exact Hreads.
  - apply (Hok (repeat x00 256)). reflexivity.
Defined.

(** ** The decoders of the architecture invert its encoder *)

Lemma byteZ_byte_of_Z (z : Z) : byteZ (byte_of_Z z) = z mod 256.
Proof.
  unfold byteZ, byte_of_Z.
  assert (Hz : 0 <= z mod 256 < 256) by (apply Z.mod_pos_bound; lia).
  destruct (Byte.of_N (Z.to_N (z mod 256))) as [b|] eqn:E.
  - apply Byte.to_of_N in E. rewrite E. apply Z2N.id. lia.
  - apply Byte.of_N_None_iff in E. lia.
Qed.

Lemma lor_low_byte (x c : Z) :
  0 <= c < 256 -> Z.lor (x * 256) c = x * 256 + c.
Proof.
  intros Hc.
  assert (Hland : Z.land (x * 256) c = 0).
  { apply Z.bits_inj'. intros n Hn.
    rewrite Z.land_spec, Z.bits_0.
    destruct (Z.lt_ge_cases n 8) as [Hlt|Hge].
    - change 256 with (2 ^ 8). rewrite Z.mul_pow2_bits_low by lia. reflexivity.
    - replace c with (c mod 2 ^ 8) by (apply Z.mod_small; exact Hc).
      rewrite Z.mod_pow2_bits_high by lia. apply andb_false_r. }
  pose proof (Z.add_lor_land (x * 256) c) as H. lia.
Qed.

Lemma int64_small (x : Z) : - 2 ^ 63 <= x < 2 ^ 63 -> int64 x = x.
Proof.
  intros H. unfold int64, wrapS. change (64 - 1) with 63.
  rewrite Z.mod_small; lia.
Qed.

Lemma wrapU_small (w x : Z) : 0 <= x < 2 ^ w -> wrapU w x = x.
Proof. intros H. unfold wrapU. apply Z.mod_small. exact H. Qed.

Lemma wrapS_small (w x : Z) :
  1 <= w -> - 2 ^ (w - 1) <= x < 2 ^ (w - 1) -> wrapS w x = x.
Proof.
  intros Hw H. unfold wrapS.
  assert (Hp : 2 ^ w = 2 * 2 ^ (w - 1)).
  { replace w with (1 + (w - 1)) at 1 by lia. rewrite Z.pow_add_r by lia. reflexivity. }
  rewrite Z.mod_small; lia.
Qed.

Lemma pow256_succ (k : nat) :
  2 ^ (8 * Z.of_nat (S k)) = 2 ^ (8 * Z.of_nat k) * 256.
Proof.
  replace (8 * Z.of_nat (S k)) with (8 * Z.of_nat k + 8) by lia.
  rewrite Z.pow_add_r by lia. reflexivity.
Qed.

Lemma pow256_pos (k : nat) : 0 < 2 ^ (8 * Z.of_nat k).
Proof. apply Z.pow_pos_nonneg; lia. Qed.

Lemma shiftr_mod_256 (v : Z) (k : nat) :
  byteZ (byte_of_Z (Z.shiftr v (8 * Z.of_nat k)))
  = (v / 2 ^ (8 * Z.of_nat k)) mod 256.
Proof. rewrite byteZ_byte_of_Z, Z.shiftr_div_pow2 by lia. reflexivity. Qed.

Lemma split_top_byte (v : Z) (k : nat) :
  v mod 2 ^ (8 * Z.of_nat (S k))
  = ((v / 2 ^ (8 * Z.of_nat k)) mod 256) * 2 ^ (8 * Z.of_nat k)
    + v mod 2 ^ (8 * Z.of_nat k).
Proof.
  rewrite pow256_succ. pose proof (pow256_pos k) as HP.
  rewrite Z.rem_mul_r by lia. lia.
Qed.

(** The unsigned accumulation over the encoding of [v], from [acc]. *)
Lemma unsigned_accumulate (v : Z) (k : nat) (acc : Z) :
  0 <= acc -> (acc + 1) * 2 ^ (8 * Z.of_nat k) <= 2 ^ 64 ->
  fold_left (fun u c => Z.lor (uint64 (Z.shiftl u 8)) (byteZ c))
            (arch.bytesMsbFirst k v) acc
  = acc * 2 ^ (8 * Z.of_nat k) + v mod 2 ^ (8 * Z.of_nat k).
Proof.
  revert acc. induction k as [|k IH]; intros acc Hacc Hfit.
  - cbn [arch.bytesMsbFirst fold_left]. change (8 * Z.of_nat 0) with 0.
    rewrite Z.pow_0_r, Z.mod_1_r. lia.
  - cbn [arch.bytesMsbFirst fold_left].
    rewrite shiftr_mod_256.
    pose proof (pow256_pos k) as HP.
    rewrite pow256_succ in Hfit.
    set (P := 2 ^ (8 * Z.of_nat k)) in *.
    set (d := (v / P) mod 256).
    assert (Hd : 0 <= d < 256) by (apply Z.mod_pos_bound; lia).
    rewrite (Z.shiftl_mul_pow2 acc 8) by lia. change (2 ^ 8) with 256.
    rewrite uint64_small by nia.
    rewrite lor_low_byte by exact Hd.
    rewrite IH by nia.
    rewrite split_top_byte, pow256_succ. fold P. fold d. ring.
Qed.

(** The signed accumulation over the encoding of [v], from [acc]. *)
Lemma signed_accumulate (v : Z) (k : nat) (acc : Z) :
  - 2 ^ 63 <= acc * 2 ^ (8 * Z.of_nat k) ->
  (acc + 1) * 2 ^ (8 * Z.of_nat k) <= 2 ^ 63 ->
  fold_left (fun x c => Z.lor (int64 (Z.shiftl x 8)) (byteZ c))
            (arch.bytesMsbFirst k v) acc
  = acc * 2 ^ (8 * Z.of_nat k) + v mod 2 ^ (8 * Z.of_nat k).
Proof.
  revert acc. induction k as [|k IH]; intros acc Hlo Hhi.
  - cbn [arch.bytesMsbFirst fold_left]. change (8 * Z.of_nat 0) with 0.
    rewrite Z.pow_0_r, Z.mod_1_r. lia.
  - cbn [arch.bytesMsbFirst fold_left].
    rewrite shiftr_mod_256.
    pose proof (pow256_pos k) as HP.
    rewrite pow256_succ in Hlo, Hhi.
    set (P := 2 ^ (8 * Z.of_nat k)) in *.
    set (d := (v / P) mod 256).
    assert (Hd : 0 <= d < 256) by (apply Z.mod_pos_bound; lia).
    rewrite (Z.shiftl_mul_pow2 acc 8) by lia. change (2 ^ 8) with 256.
    rewrite int64_small by nia.
    rewrite lor_low_byte by exact Hd.
    rewrite IH by nia.
    rewrite split_top_byte, pow256_succ. fold P. fold d. ring.
Qed.

Lemma msbFirst_PutN (a : arch.Architecture) (n : nat) (v : Z) :
  arch.msbFirst a (arch.PutN a n v) = arch.bytesMsbFirst n v.
Proof.
  unfold arch.msbFirst, arch.PutN.
  destruct (arch.LittleEndian a); [apply rev_involutive | reflexivity].
Qed.

Lemma bytesMsbFirst_length (n : nat) (v : Z) :
  List.length (arch.bytesMsbFirst n v) = n.
Proof. induction n as [|n IH]; cbn; [reflexivity | rewrite IH; reflexivity]. Qed.

Lemma PutN_length (a : arch.Architecture) (n : nat) (v : Z) :
  List.length (arch.PutN a n v) = n.
Proof.
  unfold arch.PutN. destruct (arch.LittleEndian a);
    [rewrite List.length_rev|]; apply bytesMsbFirst_length.
Qed.

Lemma UintN_PutN (a : arch.Architecture) (w v : Z) :
  0 <= w <= 8 -> 0 <= v < 2 ^ (8 * w) ->
  arch.UintN a (arch.PutN a (Z.to_nat w) v) = v.
Proof.
  intros Hw Hv. unfold arch.UintN. rewrite msbFirst_PutN.
  assert (Hpow : 2 ^ (8 * Z.of_nat (Z.to_nat w)) <= 2 ^ 64)
    by (apply Z.pow_le_mono_r; lia).
  rewrite unsigned_accumulate by lia.
  rewrite Z2Nat.id by lia. rewrite Z.mod_small by exact Hv. lia.
Qed.

Lemma IntN_PutN (a : arch.Architecture) (w v : Z) :
  1 <= w <= 8 -> - 2 ^ (8 * w - 1) <= v < 2 ^ (8 * w - 1) ->
  arch.IntN a (arch.PutN a (Z.to_nat w) v) = v.
Proof.
  intros Hw Hv. unfold arch.IntN. rewrite msbFirst_PutN.
  destruct (Z.to_nat w) as [|k] eqn:Ek; [lia|].
  assert (Hwk : w = Z.of_nat k + 1) by lia.
  cbn [arch.bytesMsbFirst]. rewrite shiftr_mod_256.
  pose proof (pow256_pos k) as HP.
  assert (Hpow : 2 ^ (8 * Z.of_nat k) <= 2 ^ 56)
    by (apply Z.pow_le_mono_r; lia).
  assert (Hhalf : 2 ^ (8 * w - 1) = 128 * 2 ^ (8 * Z.of_nat k)).
  { replace (8 * w - 1) with (7 + 8 * Z.of_nat k) by lia.
    rewrite Z.pow_add_r by lia. reflexivity. }
  rewrite Hhalf in Hv.
  set (P := 2 ^ (8 * Z.of_nat k)) in *.
  assert (Hq : - 128 <= v / P < 128).
  { split.
    - apply Z.div_le_lower_bound; lia.
    - apply Z.div_lt_upper_bound; lia. }
  assert (Htop : int8 ((v / P) mod 256) = v / P).
  { unfold int8, wrapS. change (2 ^ (8 - 1)) with 128. change (2 ^ 8) with 256.
    rewrite Zplus_mod_idemp_l. rewrite Z.mod_small; lia. }
  rewrite Htop.
  change (2 ^ 63) with (128 * 2 ^ 56) in *.
  rewrite signed_accumulate; fold P.
  - pose proof (Z.div_mod v P) as Hdm. lia.
  - change (2 ^ 63) with (128 * 2 ^ 56). nia.
  - change (2 ^ 63) with (128 * 2 ^ 56). nia.
Qed.

(** ** Reading back what was stored *)

Lemma load_ext (m m' : Memory) (n : nat) (addr : Z) :
  (forall a, addr <= a -> m a = m' a) -> load m addr n = load m' addr n.
Proof.
  revert addr. induction n as [|n IH]; intros addr Hsame; cbn [load].
  - reflexivity.
  - rewrite (Hsame addr) by lia.
    rewrite (IH (addr + 1)) by (intros a Ha; apply Hsame; lia).
    reflexivity.
Qed.

Lemma load_store (m : Memory) (bs : list byte) (addr : Z) :
  load (store m addr bs) addr (List.length bs) = Some bs.
Proof.
  revert addr. induction bs as [|b rest IH]; intros addr.
  - reflexivity.
  - cbn [store List.length load]. rewrite Z.eqb_refl.
    rewrite (load_ext _ (store m (addr + 1) rest)).
    + rewrite IH. reflexivity.
    + intros a Ha. destruct (Z.eqb_spec a addr); [lia | reflexivity].
Qed.

Lemma filled_exact (n : Z) (bs : list byte) :
  List.length bs = Z.to_nat n -> filled n bs = bs.
Proof.
  intros H. unfold filled. rewrite <- H.
  rewrite List.firstn_app, List.firstn_all, Nat.sub_diag.
  cbn [firstn]. apply app_nil_r.
Qed.

Lemma readBasic_legal (s : Server) (addr w : Z) :
  legalWidth w -> readBasic s addr w = peek s addr w.
Proof. intros [-> | [-> | [-> | ->]]]; reflexivity. Qed.

Lemma peek_stored (a : arch.Architecture) (m : Memory)
    (maps : dwarf.type -> Z -> M Z) (addr w v : Z) :
  peek (mkServer a (memPort a (store m addr (arch.PutN a (Z.to_nat w) v))) maps)
       addr w
  = ([PeekBytes addr w], Ok (arch.PutN a (Z.to_nat w) v)).
Proof.
  unfold peek. cbn [port portPeek memPort].
  pose proof (load_store m (arch.PutN a (Z.to_nat w) v) addr) as H.
  rewrite PutN_length in H. rewrite H.
  rewrite filled_exact by apply PutN_length. reflexivity.
Qed.

(** ** Integers: encoding, then decoding *)

(** C6. For a width [w] of {1,2,4,8}: after the [w] bytes of [v], in the
    byte order of the architecture, are stored at [addr], a signed integer
    descriptor of byte size [w] decodes at [addr], by one read of [w] bytes,
    to [v] in the signed value case of width [w], for every [v] of that
    width; and an unsigned one to [v] in the unsigned value case of width
    [w]. *)
Theorem integer_round_trip (a : arch.Architecture) (m : Memory)
    (maps : dwarf.type -> Z -> M Z) (t : dwarf.type) (addr w v : Z) :
  legalWidth w ->
  dwarf.ByteSize (dwarf.Common t) = w ->
  let s := mkServer a (memPort a (store m addr (arch.PutN a (Z.to_nat w) v))) maps in
  (isSigned t = true -> - 2 ^ (8 * w - 1) <= v < 2 ^ (8 * w - 1) ->
   value s t addr = ([PeekBytes addr w], Ok (signedValue w v)))
  /\ (isUnsigned t = true -> 0 <= v < 2 ^ (8 * w) ->
      value s t addr = ([PeekBytes addr w], Ok (unsignedValue w v))).
Proof.
  intros Hw Hsize s.
  assert (Hrange : 1 <= w <= 8) by (unfold legalWidth in Hw; lia).
  split.
  - intros Hkind Hv.
    assert (Hv' : wrapS (8 * w) v = v) by (apply wrapS_small; [lia | exact Hv]).
    destruct t; try discriminate Hkind; cbn [dwarf.Common] in Hsize;
      cbn [value]; rewrite Hsize, (readBasic_legal _ _ _ Hw);
      unfold s; rewrite peek_stored; cbn [context arch_];
      rewrite bind_ok, (IntN_PutN a w v Hrange Hv);
      destruct Hw as [-> | [-> | [-> | ->]]];
      cbn [Z.eqb Pos.eqb reads outcome ret fst snd app signedValue];
      unfold int8, int16, int32, int64; norm_width Hv'; rewrite Hv'; reflexivity.
  - intros Hkind Hv.
    assert (Hv' : wrapU (8 * w) v = v) by (apply wrapU_small; exact Hv).
    destruct t; try discriminate Hkind; cbn [dwarf.Common] in Hsize;
      cbn [value]; rewrite Hsize, (readBasic_legal _ _ _ Hw);
      unfold s; rewrite peek_stored; cbn [context arch_];
      rewrite bind_ok, (UintN_PutN a w v ltac:(lia) Hv);
      destruct Hw as [-> | [-> | [-> | ->]]];
      cbn [Z.eqb Pos.eqb reads outcome ret fst snd app unsignedValue];
      unfold uint8, uint16, uint32, uint64; norm_width Hv'; rewrite Hv'; reflexivity.
Qed.

Lemma integer_round_trip_witness :
  value (memServer bigEndian64
           (store zeroMemory 4096 (arch.PutN bigEndian64 (Z.to_nat 1) (-2))))
        (dwarf.CharType (common 1 "int8" 900)) 4096
  = ([PeekBytes 4096 1], Ok (debug.Int8 (-2)))
  /\ value (memServer amd64
              (store zeroMemory 4096 (arch.PutN amd64 (Z.to_nat 4) 4000000000)))
           (dwarf.UintType (common 4 "uint32" 908)) 4096
     = ([PeekBytes 4096 4], Ok (debug.Uint32 4000000000)).
Proof.
  split.
  - apply (integer_round_trip bigEndian64 zeroMemory noMaps
             (dwarf.CharType (common 1 "int8" 900)) 4096 1 (-2)).
    + unfold legalWidth. lia.
    + reflexivity.
    + reflexivity.
    + cbn. lia.
  - apply (integer_round_trip amd64 zeroMemory noMaps
             (dwarf.UintType (common 4 "uint32" 908)) 4096 4 4000000000).
    + unfold legalWidth. lia.
    + reflexivity.
    + reflexivity.
    + cbn. lia.
Defined.

(** * Further properties of [Server.value] *)

(** ** [readBasic] *)

Lemma basicSize_dec (n : Z) : basicSize n \/ ~ basicSize n.
Proof. unfold basicSize. lia. Qed.

Lemma readBasic_cases (s : Server) (addr n : Z) :
  (~ basicSize n /\ readBasic s addr n = ([], Fail (ErrInvalidSize n)))
  \/ (basicSize n /\ exists e, portPeek (port s) addr n = inl e
        /\ readBasic s addr n = ([PeekBytes addr n], Fail (ErrPeek e)))
  \/ (basicSize n /\ exists bs, portPeek (port s) addr n = inr bs
        /\ readBasic s addr n = ([PeekBytes addr n], Ok (filled n bs))).
Proof.
  destruct (basicSize_dec n) as [Hn|Hn].
  - right.
    assert (E : readBasic s addr n = peek s addr n)
      by (destruct Hn as [-> | [-> | [-> | [-> | ->]]]]; reflexivity).
    rewrite E. unfold peek.
    destruct (portPeek (port s) addr n) as [e|bs].
    + left. split; [exact Hn|]. exists e. split; reflexivity.
    + right. split; [exact Hn|]. exists bs. split; reflexivity.
  - left. split; [exact Hn|]. apply readBasic_invalid; unfold basicSize in Hn; lia.
Qed.

(** X1. [readBasic] reads nothing and fails with "invalid size" when the
    size is not 1, 2, 4, 8 or 16; otherwise it makes one read of [n] bytes
    at the address, and the buffer it returns has exactly [n] bytes. *)
Theorem readBasic_reads_n_bytes (s : Server) (addr n : Z) :
  (~ basicSize n -> readBasic s addr n = ([], Fail (ErrInvalidSize n)))
  /\ (basicSize n -> reads (readBasic s addr n) = [PeekBytes addr n])
  /\ (forall buf, outcome (readBasic s addr n) = Ok buf ->
        basicSize n /\ Z.of_nat (List.length buf) = n).
Proof.
  destruct (readBasic_cases s addr n)
    as [[Hn E] | [[Hn (e & _ & E)] | [Hn (bs & _ & E)]]]; rewrite E.
  - split; [reflexivity|]. split; [contradiction|]. intros buf H. discriminate H.
  - split; [contradiction|]. split; [reflexivity|]. intros buf H. discriminate H.
  - split; [contradiction|]. split; [reflexivity|].
    intros buf H. cbn in H. injection H as <-. split; [exact Hn|].
    rewrite filled_length. unfold basicSize in Hn. lia.
Qed.

Lemma readBasic_reads_n_bytes_witness :
  readBasic (memServer amd64 zeroMemory) 4096 3 = ([], Fail (ErrInvalidSize 3))
  /\ reads (readBasic (memServer amd64 emptyMemory) 4096 16) = [PeekBytes 4096 16]
  /\ (basicSize 2 /\ Z.of_nat (List.length (repeat x00 2)) = 2).
Proof.
  split; [|split].
  - apply (readBasic_reads_n_bytes (memServer amd64 zeroMemory) 4096 3).
    unfold basicSize. lia.
  - apply (readBasic_reads_n_bytes (memServer amd64 emptyMemory) 4096 16).
    unfold basicSize. lia.
  - apply (readBasic_reads_n_bytes (memServer amd64 zeroMemory) 4096 2).
    reflexivity.
Defined.

(** ** Integers of any memory *)

Lemma wrapS_range (w x : Z) :
  1 <= w -> - 2 ^ (w - 1) <= wrapS w x < 2 ^ (w - 1).
Proof.
  intros Hw. unfold wrapS.
  assert (Hp : 2 ^ w = 2 * 2 ^ (w - 1)).
  { replace w with (1 + (w - 1)) at 1 by lia. rewrite Z.pow_add_r by lia. reflexivity. }
  assert (Hpos : 0 < 2 ^ (w - 1)) by (apply Z.pow_pos_nonneg; lia).
  pose proof (Z.mod_pos_bound (x + 2 ^ (w - 1)) (2 ^ w)) as H. lia.
Qed.

Lemma wrapU_range (w x : Z) : 0 <= w -> 0 <= wrapU w x < 2 ^ w.
Proof.
  intros Hw. unfold wrapU. apply Z.mod_pos_bound. apply Z.pow_pos_nonneg; lia.
Qed.

Lemma basicSize_legal_or_16 (n : Z) : basicSize n -> legalWidth n \/ n = 16.
Proof. unfold basicSize, legalWidth. lia. Qed.

Lemma signed_tail (x bs : Z) :
  legalWidth bs ->
  (if bs =? 1 then ret (debug.Int8 (int8 x))
   else if bs =? 2 then ret (debug.Int16 (int16 x))
   else if bs =? 4 then ret (debug.Int32 (int32 x))
   else if bs =? 8 then ret (debug.Int64 (int64 x))
   else fail (ErrInvalidIntegerSize bs))
  = ret (signedValue bs (wrapS (8 * bs) x)).
Proof. intros [-> | [-> | [-> | ->]]]; reflexivity. Qed.

Lemma unsigned_tail (x bs : Z) :
  legalWidth bs ->
  (if bs =? 1 then ret (debug.Uint8 (uint8 x))
   else if bs =? 2 then ret (debug.Uint16 (uint16 x))
   else if bs =? 4 then ret (debug.Uint32 (uint32 x))
   else if bs =? 8 then ret (debug.Uint64 (uint64 x))
   else fail (ErrInvalidUnsignedSize bs))
  = ret (unsignedValue bs (wrapU (8 * bs) x)).
Proof. intros [-> | [-> | [-> | ->]]]; reflexivity. Qed.

(** The three ways of a signed descriptor of byte size [bs]. *)
Lemma signed_cases (s : Server) (t : dwarf.type) (addr : Z) :
  isSigned t = true ->
  let bs := dwarf.ByteSize (dwarf.Common t) in
  (~ basicSize bs
   /\ value s t addr = ([], Fail (ErrContext "reading integer" (ErrInvalidSize bs))))
  \/ (basicSize bs /\ exists e, portPeek (port s) addr bs = inl e
      /\ value s t addr
         = ([PeekBytes addr bs], Fail (ErrContext "reading integer" (ErrPeek e))))
  \/ (legalWidth bs /\ exists buf, portPeek (port s) addr bs = inr buf
      /\ value s t addr
         = ([PeekBytes addr bs],
            Ok (signedValue bs
                  (wrapS (8 * bs) (arch.IntN (arch_ s) (filled bs buf))))))
  \/ (bs = 16 /\ exists buf, portPeek (port s) addr bs = inr buf
      /\ value s t addr = ([PeekBytes addr bs], Fail (ErrInvalidIntegerSize bs))).
Proof.
  intros Hkind bs.
  destruct t as [c| |c| | | | | | | | | | | | | | | | ]; try discriminate Hkind;
    subst bs; cbn [dwarf.Common]; cbn [value];
    (destruct (readBasic_cases s addr (dwarf.ByteSize c))
       as [[Hn E] | [[Hn (e & He & E)] | [Hn (buf & Hbuf & E)]]]; rewrite E;
     [ left; split; [exact Hn | reflexivity]
     | right; left; split; [exact Hn|]; exists e; split; [exact He | reflexivity]
     | right; right; cbn [context]; rewrite bind_ok; cbv zeta;
       destruct (basicSize_legal_or_16 _ Hn) as [Hl|H16];
       [ left; split; [exact Hl|]; exists buf; split; [exact Hbuf|];
         rewrite (signed_tail _ _ Hl); reflexivity
       | right; split; [exact H16|]; exists buf; split; [exact Hbuf|];
         rewrite H16; reflexivity ] ]).
Qed.

(** The three ways of an unsigned or address descriptor of byte size [bs]. *)
Lemma unsigned_cases (s : Server) (t : dwarf.type) (addr : Z) :
  isUnsigned t = true ->
  let bs := dwarf.ByteSize (dwarf.Common t) in
  (~ basicSize bs
   /\ value s t addr
      = ([], Fail (ErrContext "reading unsigned integer" (ErrInvalidSize bs))))
  \/ (basicSize bs /\ exists e, portPeek (port s) addr bs = inl e
      /\ value s t addr
         = ([PeekBytes addr bs],
            Fail (ErrContext "reading unsigned integer" (ErrPeek e))))
  \/ (legalWidth bs /\ exists buf, portPeek (port s) addr bs = inr buf
      /\ value s t addr
         = ([PeekBytes addr bs],
            Ok (unsignedValue bs
                  (wrapU (8 * bs) (arch.UintN (arch_ s) (filled bs buf))))))
  \/ (bs = 16 /\ exists buf, portPeek (port s) addr bs = inr buf
      /\ value s t addr = ([PeekBytes addr bs], Fail (ErrInvalidUnsignedSize bs))).
Proof.
  intros Hkind bs.
  destruct t as [ |c| |c|c| | | | | | | | | | | | | | ]; try discriminate Hkind;
    subst bs; cbn [dwarf.Common]; cbn [value];
    (destruct (readBasic_cases s addr (dwarf.ByteSize c))
       as [[Hn E] | [[Hn (e & He & E)] | [Hn (buf & Hbuf & E)]]]; rewrite E;
     [ left; split; [exact Hn | reflexivity]
     | right; left; split; [exact Hn|]; exists e; split; [exact He | reflexivity]
     | right; right; cbn [context]; rewrite bind_ok; cbv zeta;
       destruct (basicSize_legal_or_16 _ Hn) as [Hl|H16];
       [ left; split; [exact Hl|]; exists buf; split; [exact Hbuf|];
         rewrite (unsigned_tail _ _ Hl); reflexivity
       | right; split; [exact H16|]; exists buf; split; [exact Hbuf|];
         rewrite H16; reflexivity ] ]).
Qed.

(** X2. A signed integer descriptor decodes to a value exactly when its
    byte size is 1, 2, 4 or 8 and the bytes at the address are readable;
    the decoder then made one read, of that many bytes at the address, and
    the value is in the signed case of that width, within the range of the
    width, whatever the bytes are. *)
Theorem signed_decoding (s : Server) (t : dwarf.type) (addr : Z) :
  isSigned t = true ->
  let bs := dwarf.ByteSize (dwarf.Common t) in
  ((exists v, outcome (value s t addr) = Ok v)
   <-> legalWidth bs /\ exists buf, portPeek (port s) addr bs = inr buf)
  /\ (forall v, outcome (value s t addr) = Ok v ->
        reads (value s t addr) = [PeekBytes addr bs]
        /\ exists x, v = signedValue bs x
                     /\ - 2 ^ (8 * bs - 1) <= x < 2 ^ (8 * bs - 1)).
Proof.
  intros Hkind bs.
  destruct (signed_cases s t addr Hkind)
    as [[Hn E] | [[Hn (e & He & E)] | [[Hl (buf & Hbuf & E)] | [H16 (buf & Hbuf & E)]]]];
    fold bs in Hn || fold bs in Hl || fold bs in H16; fold bs in E;
    try fold bs in He; try fold bs in Hbuf; rewrite E; cbn [outcome reads fst snd].
  - split.
    + split.
      * intros [v H]. discriminate H.
      * intros [Hl _]. exfalso. apply Hn. unfold basicSize, legalWidth in *. lia.
    + intros v H. discriminate H.
  - split.
    + split.
      * intros [v H]. discriminate H.
      * intros [_ [buf Hbuf]]. rewrite He in Hbuf. discriminate Hbuf.
    + intros v H. discriminate H.
  - split.
    + split.
      * intros _. split; [exact Hl|]. exists buf. exact Hbuf.
      * intros _. eexists. reflexivity.
    + intros v H. injection H as <-. split; [reflexivity|].
      eexists. split; [reflexivity|].
      apply wrapS_range. unfold legalWidth in Hl. lia.
  - split.
    + split.
      * intros [v H]. discriminate H.
      * intros [Hl _]. unfold legalWidth in Hl. lia.
    + intros v H. discriminate H.
Qed.

Lemma signed_decoding_witness :
  reads (value (memServer amd64 zeroMemory) tInt32 4096) = [PeekBytes 4096 4]
  /\ exists x, debug.Int32 0 = signedValue 4 x
               /\ - 2 ^ (8 * 4 - 1) <= x < 2 ^ (8 * 4 - 1).
Proof.
  apply (signed_decoding (memServer amd64 zeroMemory) tInt32 4096 eq_refl).
  reflexivity.
Defined.

(** X3. An unsigned integer or address descriptor decodes to a value
    exactly when its byte size is 1, 2, 4 or 8 and the bytes at the address
    are readable; the decoder then made one read, of that many bytes at the
    address, and the value is in the unsigned case of that width, within the
    range of the width. *)
Theorem unsigned_decoding (s : Server) (t : dwarf.type) (addr : Z) :
  isUnsigned t = true ->
  let bs := dwarf.ByteSize (dwarf.Common t) in
  ((exists v, outcome (value s t addr) = Ok v)
   <-> legalWidth bs /\ exists buf, portPeek (port s) addr bs = inr buf)
  /\ (forall v, outcome (value s t addr) = Ok v ->
        reads (value s t addr) = [PeekBytes addr bs]
        /\ exists x, v = unsignedValue bs x /\ 0 <= x < 2 ^ (8 * bs)).
Proof.
  intros Hkind bs.
  destruct (unsigned_cases s t addr Hkind)
    as [[Hn E] | [[Hn (e & He & E)] | [[Hl (buf & Hbuf & E)] | [H16 (buf & Hbuf & E)]]]];
    fold bs in Hn || fold bs in Hl || fold bs in H16; fold bs in E;
    try fold bs in He; try fold bs in Hbuf; rewrite E; cbn [outcome reads fst snd].
  - split.
    + split.
      * intros [v H]. discriminate H.
      * intros [Hl _]. exfalso. apply Hn. unfold basicSize, legalWidth in *. lia.
    + intros v H. discriminate H.
  - split.
    + split.
      * intros [v H]. discriminate H.
      * intros [_ [buf Hbuf]]. rewrite He in Hbuf. discriminate Hbuf.
    + intros v H. discriminate H.
  - split.
    + split.
      * intros _. split; [exact Hl|]. exists buf. exact Hbuf.
      * intros _. eexists. reflexivity.
    + intros v H. injection H as <-. split; [reflexivity|].
      eexists. split; [reflexivity|].
      apply wrapU_range. unfold legalWidth in Hl. lia.
  - split.
    + split.
      * intros [v H]. discriminate H.
      * intros [Hl _]. unfold legalWidth in Hl. lia.
    + intros v H. discriminate H.
Qed.

Lemma unsigned_decoding_witness :
  reads (value (memServer amd64 zeroMemory) tUint8 4096) = [PeekBytes 4096 1]
  /\ exists x, debug.Uint8 0 = unsignedValue 1 x /\ 0 <= x < 2 ^ (8 * 1).
Proof.
  apply (unsigned_decoding (memServer amd64 zeroMemory) tUint8 4096 eq_refl).
  reflexivity.
Defined.

(** ** Basic descriptors, uniformly *)

Lemma value_basic (s : Server) (t : dwarf.type) (addr : Z) :
  isBasic t = true ->
  value s t addr =
    if sizeAdmitted (arch_ s) t then
      bind (context (readingPrefix t)
              (readBasic s addr (dwarf.ByteSize (dwarf.Common t))))
           (decodeBasic (arch_ s) t)
    else fail (ErrInvalidPointerSize (dwarf.ByteSize (dwarf.Common t))).
Proof.
  intros Hkind. destruct t; try discriminate Hkind; try reflexivity.
  cbn [value sizeAdmitted dwarf.Common].
  destruct (dwarf.ByteSize c =? arch.PointerSize (arch_ s)); reflexivity.
Qed.

Lemma decodeBasic_shape (a : arch.Architecture) (t : dwarf.type) (buf : list byte) :
  isBasic t = true ->
  let bs := dwarf.ByteSize (dwarf.Common t) in
  reads (decodeBasic a t buf) = []
  /\ (ownWidth t bs = true ->
      exists v, outcome (decodeBasic a t buf) = Ok v /\ caseOf t bs v)
  /\ (ownWidth t bs = false ->
      exists e, outcome (decodeBasic a t buf) = Fail e /\ kind e = InvalidSize).
Proof.
  intros Hkind bs. subst bs.
  destruct t as [c|c|c|c|c|c|c|c|c pointee| | | | | | | | | | ];
    try discriminate Hkind;
    cbn [decodeBasic ownWidth dwarf.Common];
    try (destruct (dwarf.ByteSize c =? 1) eqn:E1;
         [apply Z.eqb_eq in E1|];
         (destruct (dwarf.ByteSize c =? 2) eqn:E2;
          [apply Z.eqb_eq in E2|]);
         (destruct (dwarf.ByteSize c =? 4) eqn:E4;
          [apply Z.eqb_eq in E4|]);
         (destruct (dwarf.ByteSize c =? 8) eqn:E8;
          [apply Z.eqb_eq in E8|]);
         (destruct (dwarf.ByteSize c =? 16) eqn:E16;
          [apply Z.eqb_eq in E16|]));
    cbn [orb reads outcome ret fail fst snd];
    (split; [reflexivity|]);
    (split; intros H; try discriminate H;
     eexists; (split; [reflexivity|]); cbn [caseOf kind debug.Pointer_TypeID];
     first [reflexivity | assumption | exact I | lia]).
Qed.



(** The basic descriptors that decode, and what they decode to. *)
Lemma basic_outcome (s : Server) (t : dwarf.type) (addr : Z) :
  isBasic t = true ->
  let bs := dwarf.ByteSize (dwarf.Common t) in
  ((exists v, outcome (value s t addr) = Ok v)
   <-> sizeAdmitted (arch_ s) t = true /\ basicSize bs /\ ownWidth t bs = true
       /\ exists buf, portPeek (port s) addr bs = inr buf)
  /\ (forall v, outcome (value s t addr) = Ok v ->
        caseOf t bs v /\ reads (value s t addr) = [PeekBytes addr bs]).
Proof.
  intros Hkind bs. subst bs.
  rewrite (value_basic s t addr Hkind).
  destruct (sizeAdmitted (arch_ s) t) eqn:Hadm.
  2:{ cbn [outcome fail snd]. split.
      - split.
        + intros [v H]. discriminate H.
        + intros [H _]. discriminate H.
      - intros v H. discriminate H. }
  destruct (readBasic_cases s addr (dwarf.ByteSize (dwarf.Common t)))
    as [[Hn E] | [[Hn (e & He & E)] | [Hn (buf & Hbuf & E)]]]; rewrite E.
  - cbn [context bind outcome snd]. split.
    + split.
      * intros [v H]. discriminate H.
      * intros (_ & H & _). contradiction.
    + intros v H. discriminate H.
  - cbn [context bind outcome snd]. split.
    + split.
      * intros [v H]. discriminate H.
      * intros (_ & _ & _ & buf & Hbuf). rewrite He in Hbuf. discriminate Hbuf.
    + intros v H. discriminate H.
  - cbn [context]. rewrite bind_ok.
    destruct (decodeBasic_shape (arch_ s) t (filled (dwarf.ByteSize (dwarf.Common t)) buf) Hkind)
      as (Hreads & Hok & Hfail).
    rewrite Hreads. cbn [outcome reads fst snd].
    destruct (ownWidth t (dwarf.ByteSize (dwarf.Common t))) eqn:Hown.
    + destruct (Hok eq_refl) as (v0 & Hv0 & Hcase).
      rewrite Hv0. split.
      * split.
        -- intros _. repeat split; try assumption. exists buf. exact Hbuf.
        -- intros _. exists v0. reflexivity.
      * intros v H. injection H as <-. split; [exact Hcase | reflexivity].
    + destruct (Hfail eq_refl) as (e & He & _).
      rewrite He. split.
      * split.
        -- intros [v H]. discriminate H.
        -- intros (_ & _ & H & _). discriminate H.
      * intros v H. discriminate H.
Qed.

(** X5. A basic descriptor decodes to a value exactly when the pointer
    branch admits its size, its size is one that both [readBasic] and the
    branch's own switch accept, and the bytes at the address are readable.
    The value is then in the case that goes with the descriptor and its
    size (a pointer carries the type identifier of its pointee), and the
    decoder made exactly one read: of that many bytes, at the address. *)
Theorem basic_decoding (s : Server) (t : dwarf.type) (addr : Z) :
  isBasic t = true ->
  let bs := dwarf.ByteSize (dwarf.Common t) in
  ((exists v, outcome (value s t addr) = Ok v)
   <-> sizeAdmitted (arch_ s) t = true /\ basicSize bs /\ ownWidth t bs = true
       /\ exists buf, portPeek (port s) addr bs = inr buf)
  /\ (forall v, outcome (value s t addr) = Ok v ->
        caseOf t bs v /\ reads (value s t addr) = [PeekBytes addr bs]).
Proof. exact (basic_outcome s t addr). Qed.

Lemma basic_decoding_witness :
  caseOf tBytePtr 8 (debug.VPointer (debug.mkPointer 116 0))
  /\ reads (value (memServer amd64 zeroMemory) tBytePtr 4096) = [PeekBytes 4096 8].
Proof.
  apply (basic_decoding (memServer amd64 zeroMemory) tBytePtr 4096 eq_refl).
  reflexivity.
Defined.

(** X6. When a basic descriptor fails to decode, the error is an
    invalid-size error or the error of the one read, under the "reading
    ..." prefix of the branch or, for a pointer of the wrong size, bare; the
    decoder read nothing, or the bytes of the value at the address and
    nothing else. *)
Theorem basic_failure (s : Server) (t : dwarf.type) (addr : Z) (e : Error) :
  isBasic t = true ->
  outcome (value s t addr) = Fail e ->
  let bs := dwarf.ByteSize (dwarf.Common t) in
  (kind e = InvalidSize \/ kind e = ReadFailure)
  /\ (reads (value s t addr) = [] \/ reads (value s t addr) = [PeekBytes addr bs])
  /\ (forall pe, portPeek (port s) addr bs = inl pe ->
        sizeAdmitted (arch_ s) t = true -> basicSize bs ->
        e = ErrContext (readingPrefix t) (ErrPeek pe)).
Proof.
  intros Hkind Hfail bs. subst bs. revert Hfail.
  rewrite (value_basic s t addr Hkind).
  destruct (sizeAdmitted (arch_ s) t) eqn:Hadm.
  2:{ cbn. intros H. injection H as <-. split; [left; reflexivity|].
      split; [left; reflexivity|]. intros pe _ H. discriminate H. }
  destruct (readBasic_cases s addr (dwarf.ByteSize (dwarf.Common t)))
    as [[Hn E] | [[Hn (pe & He & E)] | [Hn (buf & Hbuf & E)]]]; rewrite E.
  - cbn. intros H. injection H as <-. split; [left; reflexivity|].
    split; [left; reflexivity|]. intros pe _ _ H. contradiction.
  - cbn. intros H. injection H as <-. split; [right; reflexivity|].
    split; [right; reflexivity|].
    intros pe' Hpe' _ _. rewrite He in Hpe'. injection Hpe' as <-. reflexivity.
  - cbn [context]. rewrite bind_ok.
    destruct (decodeBasic_shape (arch_ s) t (filled (dwarf.ByteSize (dwarf.Common t)) buf) Hkind)
      as (Hreads & Hok & Hbad).
    rewrite Hreads. cbn [outcome reads fst snd].
    intros Hfail.
    destruct (ownWidth t (dwarf.ByteSize (dwarf.Common t))) eqn:Hown.
    + destruct (Hok eq_refl) as (v0 & Hv0 & _).
      rewrite Hv0 in Hfail. discriminate Hfail.
    + destruct (Hbad eq_refl) as (e' & He' & Hk).
      rewrite He' in Hfail. injection Hfail as <-.
      split; [left; exact Hk|]. split; [right; reflexivity|].
      intros pe Hpe _ _. rewrite Hbuf in Hpe. discriminate Hpe.
Qed.

Lemma basic_failure_witness :
  (kind (ErrContext "reading integer" (ErrPeek Unmapped)) = InvalidSize
   \/ kind (ErrContext "reading integer" (ErrPeek Unmapped)) = ReadFailure)
  /\ (reads (value (memServer amd64 emptyMemory) tInt32 4096) = []
      \/ reads (value (memServer amd64 emptyMemory) tInt32 4096) = [PeekBytes 4096 4]).
Proof.
  destruct (basic_failure (memServer amd64 emptyMemory) tInt32 4096
              (ErrContext "reading integer" (ErrPeek Unmapped)) eq_refl eq_refl)
    as (Hk & Hr & _).
  split; [exact Hk | exact Hr].
Defined.

(** ** Booleans *)

Lemma nonzero_spec (c : byte) : negb (Byte.eqb c x00) = true <-> c <> x00.
Proof.
  destruct (Byte.eqb c x00) eqn:E; cbn [negb]; split; intros H.
  - discriminate H.
  - apply Byte.byte_dec_bl in E. contradiction.
  - apply Byte.eqb_false. exact E.
  - reflexivity.
Qed.

(** X7. A boolean descriptor of a size that [readBasic] accepts, over
    readable bytes, decodes to [true] exactly when one of the bytes of the
    value is not zero: a boolean of several bytes is true as soon as any of
    them is set, not only the first. *)
Theorem bool_decoding (s : Server) (t : dwarf.type) (addr : Z) (buf : list byte) :
  isBool t = true ->
  let bs := dwarf.ByteSize (dwarf.Common t) in
  basicSize bs ->
  portPeek (port s) addr bs = inr buf ->
  exists b,
    value s t addr = ([PeekBytes addr bs], Ok (debug.Bool b))
    /\ (b = true <-> exists c, In c (filled bs buf) /\ c <> x00).
Proof.
  intros Hkind bs Hsize Hbuf. subst bs.
  destruct t; try discriminate Hkind. cbn [dwarf.Common] in *. cbn [value].
  destruct (readBasic_cases s addr (dwarf.ByteSize c))
    as [[Hn _] | [[_ (e & He & _)] | [_ (buf' & Hbuf' & E)]]].
  - contradiction.
  - rewrite He in Hbuf. discriminate Hbuf.
  - rewrite Hbuf in Hbuf'. injection Hbuf' as <-.
    rewrite E. eexists. split; [reflexivity|].
    rewrite existsb_exists. split.
    + intros (c0 & Hin & Hnz). exists c0. split; [exact Hin|].
      apply nonzero_spec. exact Hnz.
    + intros (c0 & Hin & Hnz). exists c0. split; [exact Hin|].
      apply nonzero_spec. exact Hnz.
Qed.

Lemma bool_decoding_witness :
  exists b,
    value (memServer amd64 (store zeroMemory 4097 [x01]))
          (dwarf.BoolType (common 2 "bool16" 1200)) 4096
    = ([PeekBytes 4096 2], Ok (debug.Bool b))
    /\ (b = true <-> exists c, In c (filled 2 [x00; x01]) /\ c <> x00).
Proof.
  apply (bool_decoding (memServer amd64 (store zeroMemory 4097 [x01]))
           (dwarf.BoolType (common 2 "bool16" 1200)) 4096 [x00; x01]).
  - reflexivity.
  - unfold basicSize. cbn. lia.
  - reflexivity.
Defined.

(** ** Pointers *)

(** X8. A pointer descriptor whose byte size is not the pointer size of the
    architecture fails with "invalid pointer size" before any read.  When
    the sizes agree (on 1, 2, 4 or 8) and the bytes of an address [p] are
    stored at [addr], the descriptor decodes by one read, at [addr], to the
    pointer value with address [p] and the type identifier of the pointee:
    the pointee itself is not read. *)
Theorem pointer_decoding (a : arch.Architecture) (p0 : Port) (m : Memory)
    (maps : dwarf.type -> Z -> M Z) (c : dwarf.CommonType)
    (pointee : dwarf.type) (addr p : Z) :
  let w := dwarf.ByteSize c in
  (w <> arch.PointerSize a ->
   value (mkServer a p0 maps) (dwarf.PtrType c pointee) addr
   = ([], Fail (ErrInvalidPointerSize w)))
  /\ (w = arch.PointerSize a -> legalWidth w -> 0 <= p < 2 ^ (8 * w) ->
      value (mkServer a (memPort a (store m addr (arch.PutN a (Z.to_nat w) p))) maps)
            (dwarf.PtrType c pointee) addr
      = ([PeekBytes addr w],
         Ok (debug.VPointer
               (debug.mkPointer (uint64 (dwarf.Offset (dwarf.Common pointee))) p)))).
Proof.
  intros w. subst w. split.
  - intros Hne. cbn [value arch_]. apply Z.eqb_neq in Hne. rewrite Hne. reflexivity.
  - intros Heq Hw Hp. cbn [value arch_].
    rewrite <- Heq, Z.eqb_refl. cbn [negb].
    rewrite (readBasic_legal _ _ _ Hw), peek_stored. cbn [context].
    rewrite bind_ok. cbn [reads outcome ret fst snd app].
    unfold arch.Uintptr.
    assert (Hrange : 0 <= dwarf.ByteSize c <= 8) by (unfold legalWidth in Hw; lia).
    rewrite (UintN_PutN a _ p Hrange Hp).
    assert (H64 : 2 ^ (8 * dwarf.ByteSize c) <= 2 ^ 64)
      by (apply Z.pow_le_mono_r; lia).
    rewrite (uint64_small p) by lia. reflexivity.
Qed.

Lemma pointer_decoding_witness :
  value (mkServer amd64 deadPort noMaps)
        (dwarf.PtrType (common 4 "*uint8" 1300) tUint8) 4096
  = ([], Fail (ErrInvalidPointerSize 4))
  /\ value (memServer amd64 (store emptyMemory 4096 (arch.PutN amd64 (Z.to_nat 8) 8192)))
           tBytePtr 4096
     = ([PeekBytes 4096 8], Ok (debug.VPointer (debug.mkPointer 116 8192))).
Proof.
  split.
  - apply (pointer_decoding amd64 deadPort emptyMemory noMaps
             (common 4 "*uint8" 1300) tUint8 4096 0).
    cbn. lia.
  - apply (pointer_decoding amd64 deadPort emptyMemory noMaps
             (common 8 "*uint8" 132) tUint8 4096 8192).
    + reflexivity.
    + unfold legalWidth. cbn. lia.
    + cbn. lia.
Defined.

(** ** Channels that are not nil *)

(** X9. For a channel whose representation is a pointer to a struct and
    whose pointer, read at [addr], is [a <> 0]: where the fields "buf",
    "qcount", "dataqsiz" and "recvx" of the header are readable at [a] (not
    at [addr]), the decoder reads the pointer and then these four fields,
    in this order, and returns the channel value with header address [a],
    the buffer, length, capacity and read offset read from these fields,
    and the byte size of the element type as stride. *)
Theorem open_channel_decoding (s : Server) (c cp : dwarf.CommonType)
    (st : dwarf.StructT) (elem : dwarf.type)
    (addr a0 buf qcount capacity recvx : Z) :
  let a := uint64 a0 in
  portPeekPointer (port s) addr = inr a0 ->
  a <> 0 ->
  outcome (peekPtrStructField s st a "buf") = Ok buf ->
  outcome (peekUintOrIntStructField s st a "qcount") = Ok qcount ->
  outcome (peekUintOrIntStructField s st a "dataqsiz") = Ok capacity ->
  outcome (peekUintOrIntStructField s st a "recvx") = Ok recvx ->
  value s (dwarf.ChanType c (dwarf.PtrType cp (dwarf.StructType st)) elem) addr
  = (PeekPtr addr
       :: reads (peekPtrStructField s st a "buf")
       ++ reads (peekUintOrIntStructField s st a "qcount")
       ++ reads (peekUintOrIntStructField s st a "dataqsiz")
       ++ reads (peekUintOrIntStructField s st a "recvx"),
     Ok (debug.VChannel
           (debug.mkChannel
              (uint64 (dwarf.Offset (dwarf.Common elem)))
              a buf qcount capacity
              (uint64 (dwarf.ByteSize (dwarf.Common elem)))
              recvx))).
Proof.
  intros a Hptr Hnz Hbuf Hq Hc Hr.
  cbn [value]. unfold peekPtr at 1. rewrite Hptr. fold a.
  cbn [context]. rewrite bind_ok.
  apply Z.eqb_neq in Hnz. rewrite Hnz.
  rewrite (context_ok _ _ _ Hbuf), bind_ok.
  rewrite (context_ok _ _ _ Hq), bind_ok.
  rewrite (context_ok _ _ _ Hc), bind_ok.
  rewrite (context_ok _ _ _ Hr), bind_ok.
  cbn [reads outcome ret fst snd app]. rewrite app_nil_r. reflexivity.
Qed.

Lemma open_channel_decoding_witness :
  value (memServer amd64 memChan) tChan 4096
  = ([PeekPtr 4096; PeekPtr 8208; PeekBytes 8192 8; PeekBytes 8200 8; PeekBytes 8248 8],
     Ok (debug.VChannel (debug.mkChannel 108 8192 12288 2 4 8 1))).
Proof.
  apply (open_channel_decoding (memServer amd64 memChan)
           (common 8 "chan int64" 600) (common 8 "*runtime.hchan" 608)
           stHchan tInt64 4096 8192 12288 2 4 1).
  - reflexivity.
  - discriminate.
  - reflexivity.
  - reflexivity.
  - reflexivity.
  - reflexivity.
Defined.

(** ** Headers are read field by field *)

(** X10. A slice is decoded from its header alone.  The fields "array",
    "len" and "cap" are read in this order; the first one that cannot be
    read ends the decoding with its error under the prefix of the field,
    and the fields after it are not read; when the three are read, the
    decoder has made their reads and no other: the elements of the slice
    are not read. *)
Theorem slice_reads_its_header_only (s : Server) (st : dwarf.StructT)
    (elem : dwarf.type) (addr : Z) :
  let v := value s (dwarf.SliceType st elem) addr in
  let pa := peekPtrStructField s st addr "array" in
  let pl := peekUintOrIntStructField s st addr "len" in
  let pc := peekUintOrIntStructField s st addr "cap" in
  (forall e, outcome pa = Fail e ->
     v = (reads pa, Fail (ErrContext "reading slice location" e)))
  /\ (forall ptr e, outcome pa = Ok ptr -> outcome pl = Fail e ->
        v = (reads pa ++ reads pl, Fail (ErrContext "reading slice length" e)))
  /\ (forall ptr len e,
        outcome pa = Ok ptr -> outcome pl = Ok len -> outcome pc = Fail e ->
        v = (reads pa ++ reads pl ++ reads pc,
             Fail (ErrContext "reading slice capacity" e)))
  /\ (forall ptr len cap,
        outcome pa = Ok ptr -> outcome pl = Ok len -> outcome pc = Ok cap ->
        reads v = reads pa ++ reads pl ++ reads pc).
Proof.
  intros v pa pl pc. subst v pa pl pc. cbn [value]. repeat split.
  - intros e Ha. rewrite (context_fail _ _ _ Ha). reflexivity.
  - intros ptr e Ha Hl.
    rewrite (context_ok _ _ _ Ha), bind_ok, (context_fail _ _ _ Hl). reflexivity.
  - intros ptr len e Ha Hl Hc.
    rewrite (context_ok _ _ _ Ha), bind_ok, (context_ok _ _ _ Hl), bind_ok,
      (context_fail _ _ _ Hc). reflexivity.
  - intros ptr len cap Ha Hl Hc.
    rewrite (context_ok _ _ _ Ha), bind_ok, (context_ok _ _ _ Hl), bind_ok,
      (context_ok _ _ _ Hc), bind_ok.
    cbn [reads fst]. destruct (cap <? len); cbn [reads fail ret fst];
      rewrite app_nil_r; reflexivity.
Qed.

Lemma slice_reads_its_header_only_witness :
  value (mkServer amd64 deadPort noMaps) tSlice 4096
  = ([PeekPtr 4096],
     Fail (ErrContext "reading slice location" (ErrPeek Unavailable)))
  /\ reads (value (memServer amd64 memSlice35) tSlice 4096)
     = [PeekPtr 4096; PeekBytes 4104 8; PeekBytes 4112 8].
Proof.
  split.
  - apply (slice_reads_its_header_only (mkServer amd64 deadPort noMaps)
             stSlice tInt64 4096).
    reflexivity.
  - pose proof (slice_reads_its_header_only (memServer amd64 memSlice35)
                  stSlice tInt64 4096) as H.
    cbv zeta in H. destruct H as (_ & _ & _ & H).
    apply (H 0 3 5); reflexivity.
Defined.

(** X11. The bytes of a string are read only after both fields of its
    header were read: a header field that cannot be read ends the decoding
    with its error under the prefix of the field, before any read at the
    string's pointer; and when the read of the bytes fails, the decoding
    fails with that error under "reading string contents". *)
Theorem string_failures (s : Server) (st : dwarf.StructT) (addr : Z) :
  let v := value s (dwarf.StringType st) addr in
  let pp := peekPtrStructField s st addr "str" in
  let pl := peekUintOrIntStructField s st addr "len" in
  (forall e, outcome pp = Fail e ->
     v = (reads pp, Fail (ErrContext "reading string location" e)))
  /\ (forall ptr e, outcome pp = Ok ptr -> outcome pl = Fail e ->
        v = (reads pp ++ reads pl, Fail (ErrContext "reading string length" e)))
  /\ (forall ptr L pe,
        outcome pp = Ok ptr -> outcome pl = Ok L ->
        portPeek (port s) ptr (Z.min L maxStringSize) = inl pe ->
        v = (reads pp ++ reads pl ++ [PeekBytes ptr (Z.min L maxStringSize)],
             Fail (ErrContext "reading string contents" (ErrPeek pe)))).
Proof.
  intros v pp pl. subst v pp pl. cbn [value]. repeat split.
  - intros e Hp. rewrite (context_fail _ _ _ Hp). reflexivity.
  - intros ptr e Hp Hl.
    rewrite (context_ok _ _ _ Hp), bind_ok, (context_fail _ _ _ Hl). reflexivity.
  - intros ptr L pe Hp Hl Hpe.
    rewrite (context_ok _ _ _ Hp), bind_ok, (context_ok _ _ _ Hl), bind_ok.
    assert (Hn : (if L >? maxStringSize then maxStringSize else L)
                 = Z.min L maxStringSize).
    { unfold maxStringSize. destruct (L >? 256) eqn:E.
      - apply Z.gtb_lt in E. lia.
      - rewrite Z.gtb_ltb in E. apply Z.ltb_ge in E. lia. }
    rewrite Hn. unfold peekBytes, peek. rewrite Hpe. reflexivity.
Qed.

Lemma string_failures_witness :
  value (mkServer amd64 deadPort noMaps) tString 4096
  = ([PeekPtr 4096],
     Fail (ErrContext "reading string location" (ErrPeek Unavailable)))
  /\ value (memServer amd64
              (store (store emptyMemory 4096 (arch.PutN amd64 8 8192))
                     4104 (arch.PutN amd64 8 1000)))
           tString 4096
     = ([PeekPtr 4096; PeekBytes 4104 8; PeekBytes 8192 256],
        Fail (ErrContext "reading string contents" (ErrPeek Unmapped))).
Proof.
  split.
  - apply (string_failures (mkServer amd64 deadPort noMaps) stString 4096).
    reflexivity.
  - pose proof (string_failures
                  (memServer amd64
                     (store (store emptyMemory 4096 (arch.PutN amd64 8 8192))
                            4104 (arch.PutN amd64 8 1000)))
                  stString 4096) as H.
    cbv zeta in H. destruct H as (_ & _ & H).
    apply (H 8192 1000 Unmapped); reflexivity.
Defined.

(** ** Chains of typedefs *)

Lemma value_underlying (s : Server) (t : dwarf.type) (addr : Z) :
  value s t addr = value s (underlying t) addr
  /\ isTypedef (underlying t) = false.
Proof.
  induction t; try (split; reflexivity).
  cbn [value underlying]. exact IHt.
Qed.

(** X12. However many typedefs are stacked on a descriptor, decoding at an
    address is decoding the descriptor under all of them at that address;
    that descriptor is not a typedef. *)
Theorem typedef_chain_is_transparent (s : Server) (t : dwarf.type) (addr : Z) :
  value s t addr = value s (underlying t) addr
  /\ isTypedef (underlying t) = false.
Proof. exact (value_underlying s t addr). Qed.

(** ** The decoder depends on the target through its reads only *)











(** ** The cost of a decoding *)

Lemma bound_bind {A B} (n1 n2 : nat) (m : M A) (k : A -> M B) :
  (List.length (reads m) <= n1)%nat ->
  (forall a, (List.length (reads (k a)) <= n2)%nat) ->
  (List.length (reads (bind m k)) <= n1 + n2)%nat.
Proof.
  intros Hm Hk. rewrite reads_bind, List.length_app.
  destruct (outcome m) as [a|e].
  - specialize (Hk a). lia.
  - cbn. lia.
Qed.

Lemma bound_context {A} (n : nat) (prefix : string) (m : M A) :
  (List.length (reads m) <= n)%nat ->
  (List.length (reads (context prefix m)) <= n)%nat.
Proof. rewrite reads_context. exact (fun H => H). Qed.

Lemma bound_readBasic (s : Server) (addr n : Z) :
  (List.length (reads (readBasic s addr n)) <= 1)%nat.
Proof.
  unfold readBasic.
  destruct ((n =? 1) || (n =? 2) || (n =? 4) || (n =? 8) || (n =? 16));
    cbn; lia.
Qed.

Lemma bound_peekPtrStructField (s : Server) (st : dwarf.StructT) (addr : Z)
    (fieldName : string) :
  (List.length (reads (peekPtrStructField s st addr fieldName)) <= 1)%nat.
Proof.
  unfold peekPtrStructField.
  destruct (getField st fieldName) as [f|]; [|cbn; lia].
  destruct (dwarf.FieldType f); cbn; lia.
Qed.

Lemma bound_peekUintOrIntStructField (s : Server) (st : dwarf.StructT)
    (addr : Z) (fieldName : string) :
  (List.length (reads (peekUintOrIntStructField s st addr fieldName)) <= 1)%nat.
Proof.
  unfold peekUintOrIntStructField.
  destruct (getField st fieldName) as [f|]; [|cbn; lia].
  cbv zeta.
  destruct (dwarf.FieldType f); try (cbn; lia);
    apply (bound_bind 1 0); try (cbn; lia); intros buf; cbn; lia.
Qed.

(** X14. Whatever the descriptor, the address and the memory, a decoding
    makes at most five accesses to the target when the descriptor is not,
    under its typedefs, a map (five for a channel that is not nil: its
    pointer and four header fields); for a map it makes the accesses of the
    map-length strategy and no other. *)
Theorem decoding_cost_is_bounded (s : Server) (t : dwarf.type) (addr : Z) :
  match underlying t with
  | dwarf.MapType _ _ _ =>
      reads (value s t addr) = reads (peekMapLength s (underlying t) addr)
  | _ => (List.length (reads (value s t addr)) <= 5)%nat
  end.
Proof.
  induction t as [c|c|c|c|c|c|c|c|c pointee _|st elem _|c elem _ stride count
                 |st|c target IH|c k _ e _|st|c rep _ elem _|c|c|goName c];
    cbn [underlying]; cbn [value]; try exact IH.
  - apply (bound_bind 1 4); [apply bound_context, bound_readBasic|].
    intros buf. cbv zeta.
    repeat match goal with |- context [if ?b then _ else _] => destruct b end;
      cbn; lia.
  - apply (bound_bind 1 4); [apply bound_context, bound_readBasic|].
    intros buf. cbv zeta.
    repeat match goal with |- context [if ?b then _ else _] => destruct b end;
      cbn; lia.
  - apply (bound_bind 1 4); [apply bound_context, bound_readBasic|].
    intros buf. cbv zeta.
    repeat match goal with |- context [if ?b then _ else _] => destruct b end;
      cbn; lia.
  - apply (bound_bind 1 4); [apply bound_context, bound_readBasic|].
    intros buf. cbv zeta.
    repeat match goal with |- context [if ?b then _ else _] => destruct b end;
      cbn; lia.
  - apply (bound_bind 1 4); [apply bound_context, bound_readBasic|].
    intros buf. cbv zeta.
    repeat match goal with |- context [if ?b then _ else _] => destruct b end;
      cbn; lia.
  - apply (bound_bind 1 4); [apply bound_context, bound_readBasic|].
    intros buf. cbn. lia.
  - apply (bound_bind 1 4); [apply bound_context, bound_readBasic|].
    intros buf. cbv zeta.
    repeat match goal with |- context [if ?b then _ else _] => destruct b end;
      cbn; lia.
  - apply (bound_bind 1 4); [apply bound_context, bound_readBasic|].
    intros buf. cbv zeta.
    repeat match goal with |- context [if ?b then _ else _] => destruct b end;
      cbn; lia.
  - cbv zeta. destruct (negb _); [cbn; lia|].
    apply (bound_bind 1 4); [apply bound_context, bound_readBasic|].
    intros buf. cbn. lia.
  - apply (bound_bind 1 4); [apply bound_context, bound_peekPtrStructField|].
    intros ptr.
    apply (bound_bind 1 3); [apply bound_context, bound_peekUintOrIntStructField|].
    intros len.
    apply (bound_bind 1 2); [apply bound_context, bound_peekUintOrIntStructField|].
    intros cap. destruct (cap <? len); cbn; lia.
  - destruct (negb _); cbn; lia.
  - cbn. lia.
  - rewrite reads_bind.
    destruct (outcome (peekMapLength s (dwarf.MapType c k e) addr));
      cbn [reads ret fst]; apply app_nil_r.
  - apply (bound_bind 1 4); [apply bound_context, bound_peekPtrStructField|].
    intros ptr.
    apply (bound_bind 1 3); [apply bound_context, bound_peekUintOrIntStructField|].
    intros len. cbv zeta.
    apply (bound_bind 1 2); [apply bound_context; cbn; lia|].
    intros tmp. cbn. lia.
  - destruct rep as [ | | | | | | | |cp pointee| | | | | | | | | | ];
      try (cbn; lia).
    destruct pointee; try (cbn; lia).
    apply (bound_bind 1 4); [apply bound_context; cbn; lia|].
    intros a. destruct (a =? 0); [cbn; lia|].
    apply (bound_bind 1 3); [apply bound_context, bound_peekPtrStructField|].
    intros buf.
    apply (bound_bind 1 2); [apply bound_context, bound_peekUintOrIntStructField|].
    intros q.
    apply (bound_bind 1 1); [apply bound_context, bound_peekUintOrIntStructField|].
    intros cap.
    apply (bound_bind 1 0); [apply bound_context, bound_peekUintOrIntStructField|].
    intros r. cbn. lia.
  - apply (bound_bind 1 4); [apply bound_context; cbn; lia|].
    intros a. cbn. lia.
  - cbn. lia.
  - cbn. lia.
Qed.

(** ** What a decoded value is *)

Lemma outcome_step {A B} (prefix : string) (m : M A) (k : A -> M B) (b : B) :
  outcome (bind (context prefix m) k) = Ok b ->
  exists a, outcome m = Ok a /\ outcome (k a) = Ok b.
Proof.
  rewrite outcome_bind, outcome_context.
  destruct (outcome m) as [a|e]; [|discriminate].
  intros H. exists a. split; [reflexivity | exact H].
Qed.

(** X15. Every value that the decoder returns is well formed for the
    descriptor under the typedefs: it is in the value case of the
    descriptor (for the basic descriptors, the case of its byte size); a
    slice value is not longer than its capacity; the preview of a string
    value has the declared length, cut at 256 bytes; an array value has a
    stride of whole bytes; a struct value has a view per declared field. *)
Theorem decoded_value_is_well_formed (s : Server) (t : dwarf.type) (addr : Z)
    (v : debug.Value) :
  outcome (value s t addr) = Ok v -> wellFormed (underlying t) v.
Proof.
  destruct (value_underlying s t addr) as [-> Hnt].
  destruct (underlying t) as [c|c|c|c|c|c|c|c|c pointee|st elem|c elem stride count
                             |st|c target|c k e|st|c rep elem|c|c|goName c];
    try discriminate Hnt; clear Hnt;
    try (intros Hv;
         match goal with
         | |- wellFormed ?u _ =>
             exact (proj1 (proj2 (basic_outcome s u addr eq_refl) v Hv))
         end).
  - (* slice *)
    cbn [value]. intros Hv.
    apply outcome_step in Hv as (ptr & _ & Hv).
    apply outcome_step in Hv as (len & _ & Hv).
    apply outcome_step in Hv as (cap & _ & Hv).
    destruct (cap <? len) eqn:E; [discriminate Hv|].
    injection Hv as <-. cbn. apply Z.ltb_ge. exact E.
  - (* array *)
    cbn [value]. destruct (Z.rem stride 8 =? 0) eqn:E; [|discriminate].
    intros Hv. injection Hv as <-. cbn.
    apply Z.rem_divide; [discriminate|]. apply Z.eqb_eq. exact E.
  - (* struct *)
    cbn [value]. intros Hv. injection Hv as <-. cbn.
    unfold structFields. apply List.length_map.
  - (* map *)
    cbn [value]. rewrite outcome_bind.
    destruct (outcome (peekMapLength s (dwarf.MapType c k e) addr)); [|discriminate].
    intros Hv. injection Hv as <-. exact I.
  - (* string *)
    cbn [value]. intros Hv.
    apply outcome_step in Hv as (ptr & _ & Hv).
    apply outcome_step in Hv as (L & HL & Hv).
    apply peekUintOrIntStructField_nonneg in HL.
    cbv zeta in Hv. apply outcome_step in Hv as (tmp & Htmp & Hv).
    injection Hv as <-. cbn.
    unfold peekBytes, peek in Htmp. cbn [outcome snd] in Htmp.
    destruct (portPeek _ _ _); [discriminate Htmp|].
    injection Htmp as <-. rewrite filled_length.
    unfold maxStringSize. destruct (L >? 256) eqn:E.
    + apply Z.gtb_lt in E. lia.
    + rewrite Z.gtb_ltb in E. apply Z.ltb_ge in E. lia.
  - (* channel *)
    cbn [value].
    destruct rep as [ | | | | | | | |cp pointee| | | | | | | | | | ];
      try discriminate.
    destruct pointee; try discriminate.
    intros Hv. apply outcome_step in Hv as (a & _ & Hv).
    destruct (a =? 0).
    + injection Hv as <-. exact I.
    + apply outcome_step in Hv as (buf & _ & Hv).
      apply outcome_step in Hv as (q & _ & Hv).
      apply outcome_step in Hv as (cap & _ & Hv).
      apply outcome_step in Hv as (r & _ & Hv).
      injection Hv as <-. exact I.
  - (* func *)
    cbn [value]. intros Hv. apply outcome_step in Hv as (a & _ & Hv).
    injection Hv as <-. exact I.
  - (* interface *)
    cbn [value]. intros Hv. injection Hv as <-. exact I.
  - (* other *)
    cbn [value]. discriminate.
Qed.

Lemma decoded_value_is_well_formed_witness :
  wellFormed (underlying tSlice)
    (debug.VSlice (debug.mkSlice (debug.mkArray 108 0 3 64) 5)).
Proof.
  apply (decoded_value_is_well_formed (memServer amd64 memSlice35) tSlice 4096).
  reflexivity.
Defined.

(** ** Counts and strides that are negative *)

(** X16. The count of an array descriptor is signed, the length of an
    array value is not: an array descriptor of negative count that decodes
    yields the length 2^64 plus the count (2^64 - 1 for the count -1). *)
Theorem negative_counts_wrap (s : Server) (c : dwarf.CommonType)
    (elem : dwarf.type) (stride count addr : Z) (arr : debug.Array) :
  - 2 ^ 63 <= count < 0 ->
  outcome (value s (dwarf.ArrayType c elem stride count) addr)
  = Ok (debug.VArray arr) ->
  debug.Array_Length arr = 2 ^ 64 + count.
Proof.
  intros Hcount. cbn [value].
  destruct (negb (Z.rem stride 8 =? 0)); [discriminate|].
  intros Hv. injection Hv as <-. cbn [debug.Array_Length].
  unfold uint64, wrapU.
  rewrite <- (Z.mod_add count 1 (2 ^ 64)) by lia.
  rewrite Z.mod_small; lia.
Qed.

Lemma negative_counts_wrap_witness :
  debug.Array_Length (debug.mkArray 108 4096 (2 ^ 64 - 1) 64) = 2 ^ 64 + -1.
Proof.
  apply (negative_counts_wrap (memServer amd64 emptyMemory)
           (common (-1) "[]int64" 1400) tInt64 64 (-1) 4096).
  - lia.
  - reflexivity.
Defined.
